(** * FreeCut GPU shader graph: builder, pass merger, compiler and blend math

    A shallow embedding of [src/features/gpu/graph]: the graph builder
    ([shader-graph.ts]), the WGSL blend functions of [nodes/blend-node.ts],
    and, modelled from the specification where the implementation file is not
    part of the sources, the pass merger and the graph compiler. *)

From Stdlib Require Import QArith Lqa.
From stdpp Require Import gmap strings list fin_maps pretty relations.

Local Open Scope string_scope.
Local Open Scope nat_scope.
Local Open Scope stdpp_scope.
Local Open Scope list_scope.

(** ** Blend functions (nodes/blend-node.ts, [BLEND_FUNCTIONS_WGSL])

    WGSL [f32] arithmetic is modelled by exact rational arithmetic; [vec3f]
    and [vec4f] are records and the WGSL operators act per component. *)

Module Blend.

Record vec3f := Vec3f { x3 : Q; y3 : Q; z3 : Q }.
Record vec4f := Vec4f { r : Q; g : Q; b : Q; a : Q }.

(** [v.rgb] *)
Definition rgb (v : vec4f) : vec3f := Vec3f (r v) (g v) (b v).
(** [vec4f(rgb, alpha)] *)
Definition vec4f_rgb_a (c : vec3f) (alpha : Q) : vec4f :=
  Vec4f (x3 c) (y3 c) (z3 c) alpha.
(** [vec4f(s)]: the scalar splatted on the four components *)
Definition vec4f_splat (s : Q) : vec4f := Vec4f s s s s.

(** [u * v], [u + v] on [vec3f]; [v * s] and [v / s] with a scalar *)
Definition vmul (u v : vec3f) : vec3f :=
  Vec3f (x3 u * x3 v) (y3 u * y3 v) (z3 u * z3 v).
Definition vadd (u v : vec3f) : vec3f :=
  Vec3f (x3 u + x3 v) (y3 u + y3 v) (z3 u + z3 v).
Definition vscale (v : vec3f) (s : Q) : vec3f :=
  Vec3f (x3 v * s) (y3 v * s) (z3 v * s).
Definition vdiv (v : vec3f) (s : Q) : vec3f :=
  Vec3f (x3 v / s) (y3 v / s) (z3 v / s).

(** [fn blend_normal(base, blend) { return blend; }] *)
Definition blend_normal (base blend : vec4f) : vec4f := blend.

(** [fn blend_multiply(base, blend) { return vec4f(base.rgb * blend.rgb, blend.a); }] *)
Definition blend_multiply (base blend : vec4f) : vec4f :=
  vec4f_rgb_a (vmul (rgb base) (rgb blend)) (a blend).

(** [let outAlpha = blend.a + base.a * (1.0 - blend.a);] *)
Definition outAlpha (base blend : vec4f) : Q :=
  a blend + a base * (1 - a blend).

(** The numerator of [outRgb]:
    [blend.rgb * blend.a + base.rgb * base.a * (1.0 - blend.a)] *)
Definition over_numerator (base blend : vec4f) : vec3f :=
  vadd (vscale (rgb blend) (a blend))
       (vscale (vscale (rgb base) (a base)) (1 - a blend)).

(** Porter-Duff "over":
<<
  fn alpha_composite_over(base: vec4f, blend: vec4f) -> vec4f {
    let outAlpha = blend.a + base.a * (1.0 - blend.a);
    if (outAlpha <= 0.0) { return vec4f(0.0); }
    let outRgb = (blend.rgb * blend.a + base.rgb * base.a * (1.0 - blend.a)) / outAlpha;
    return vec4f(outRgb, outAlpha);
  }
>> *)
Definition alpha_composite_over (base blend : vec4f) : vec4f :=
  let oa := outAlpha base blend in
  if Qle_bool oa 0 then vec4f_splat 0
  else vec4f_rgb_a (vdiv (over_numerator base blend) oa) oa.

(** [fn alpha_composite_under(base, blend) { return alpha_composite_over(blend, base); }] *)
Definition alpha_composite_under (base blend : vec4f) : vec4f :=
  alpha_composite_over blend base.


(** The channels of a color are in [0,1]. *)
Definition unit_range (v : vec4f) : Prop :=
  (0 <= r v <= 1 /\ 0 <= g v <= 1 /\ 0 <= b v <= 1)%Q.

(** *** The other blend modes

    WGSL builtins on scalars: [a < b], [a >= b], [a <= b], [min], [max] and
    [abs], as the WGSL specification defines them. *)
Definition lt (x y : Q) : bool := negb (Qle_bool y x).
Definition ge (x y : Q) : bool := Qle_bool y x.
Definition le (x y : Q) : bool := Qle_bool x y.
Definition fmin (e1 e2 : Q) : Q := if lt e2 e1 then e2 else e1.
Definition fmax (e1 e2 : Q) : Q := if lt e1 e2 then e2 else e1.
Definition fabs (e : Q) : Q := if lt e 0 then (- e)%Q else e.

(** Component-wise application, [vec3f(s)], [vec3<bool>] and [select]. *)
Record vec3b := Vec3b { xb : bool; yb : bool; zb : bool }.

Definition vmap (f : Q -> Q) (v : vec3f) : vec3f :=
  Vec3f (f (x3 v)) (f (y3 v)) (f (z3 v)).
Definition vzip (f : Q -> Q -> Q) (u v : vec3f) : vec3f :=
  Vec3f (f (x3 u) (x3 v)) (f (y3 u) (y3 v)) (f (z3 u) (z3 v)).
Definition vcmp (f : Q -> Q -> bool) (u v : vec3f) : vec3b :=
  Vec3b (f (x3 u) (x3 v)) (f (y3 u) (y3 v)) (f (z3 u) (z3 v)).
Definition vec3f_splat (s : Q) : vec3f := Vec3f s s s.

(** [select(f, t, cond)]: [t] where [cond] holds, [f] elsewhere. *)
Definition select (f t : vec3f) (cond : vec3b) : vec3f :=
  Vec3f (if xb cond then x3 t else x3 f)
        (if yb cond then y3 t else y3 f)
        (if zb cond then z3 t else z3 f).

(** [u - v], [u / v]; [s - v] and [s * v] with the scalar first. *)
Definition vsub (u v : vec3f) : vec3f := vzip Qminus u v.
Definition vquot (u v : vec3f) : vec3f := vzip Qdiv u v.
Definition ssub (s : Q) (v : vec3f) : vec3f := vmap (fun c => (s - c)%Q) v.
Definition smul (s : Q) (v : vec3f) : vec3f := vmap (fun c => (s * c)%Q) v.

(** [vec4f(1.0 - (1.0 - base.rgb) * (1.0 - blend.rgb), blend.a)] *)
Definition blend_screen (base blend : vec4f) : vec4f :=
  vec4f_rgb_a (ssub 1 (vmul (ssub 1 (rgb base)) (ssub 1 (rgb blend)))) (a blend).

(** The two branches [overlay] and [hard_light] select from:
    [1.0 - 2.0 * (1.0 - base.rgb) * (1.0 - blend.rgb)] and
    [2.0 * base.rgb * blend.rgb]. *)
Definition overlay_light (base blend : vec4f) : vec3f :=
  ssub 1 (vmul (smul 2 (ssub 1 (rgb base))) (ssub 1 (rgb blend))).
Definition overlay_dark (base blend : vec4f) : vec3f :=
  vmul (smul 2 (rgb base)) (rgb blend).

(** [select(light, dark, base.rgb < vec3f(0.5))] *)
Definition blend_overlay (base blend : vec4f) : vec4f :=
  vec4f_rgb_a
    (select (overlay_light base blend) (overlay_dark base blend)
            (vcmp lt (rgb base) (vec3f_splat (1 # 2))))
    (a blend).

(** [vec4f(min(base.rgb + blend.rgb, vec3f(1.0)), blend.a)] *)
Definition blend_add (base blend : vec4f) : vec4f :=
  vec4f_rgb_a (vzip fmin (vadd (rgb base) (rgb blend)) (vec3f_splat 1)) (a blend).

(** [vec4f(max(base.rgb - blend.rgb, vec3f(0.0)), blend.a)] *)
Definition blend_subtract (base blend : vec4f) : vec4f :=
  vec4f_rgb_a (vzip fmax (vsub (rgb base) (rgb blend)) (vec3f_splat 0)) (a blend).

(** [vec4f(abs(base.rgb - blend.rgb), blend.a)] *)
Definition blend_difference (base blend : vec4f) : vec4f :=
  vec4f_rgb_a (vmap fabs (vsub (rgb base) (rgb blend))) (a blend).

(** [vec4f(min(base.rgb, blend.rgb), blend.a)] and [max] *)
Definition blend_darken (base blend : vec4f) : vec4f :=
  vec4f_rgb_a (vzip fmin (rgb base) (rgb blend)) (a blend).
Definition blend_lighten (base blend : vec4f) : vec4f :=
  vec4f_rgb_a (vzip fmax (rgb base) (rgb blend)) (a blend).

(** [select(min(base.rgb / (1.0 - blend.rgb), vec3f(1.0)), vec3f(1.0),
            blend.rgb >= vec3f(1.0))] *)
Definition blend_color_dodge (base blend : vec4f) : vec4f :=
  vec4f_rgb_a
    (select (vzip fmin (vquot (rgb base) (ssub 1 (rgb blend))) (vec3f_splat 1))
            (vec3f_splat 1)
            (vcmp ge (rgb blend) (vec3f_splat 1)))
    (a blend).

(** [select(1.0 - min((1.0 - base.rgb) / blend.rgb, vec3f(1.0)), vec3f(0.0),
            blend.rgb <= vec3f(0.0))] *)
Definition blend_color_burn (base blend : vec4f) : vec4f :=
  vec4f_rgb_a
    (select (ssub 1 (vzip fmin (vquot (ssub 1 (rgb base)) (rgb blend))
                               (vec3f_splat 1)))
            (vec3f_splat 0)
            (vcmp le (rgb blend) (vec3f_splat 0)))
    (a blend).

(** [select(light, dark, blend.rgb < vec3f(0.5))] *)
Definition blend_hard_light (base blend : vec4f) : vec4f :=
  vec4f_rgb_a
    (select (overlay_light base blend) (overlay_dark base blend)
            (vcmp lt (rgb blend) (vec3f_splat (1 # 2))))
    (a blend).

(** The blend functions above, by the name [getBlendModeCode] gives the mode
    ([blend_soft_light] takes a square root and is not among them). *)
Definition blend_functions : list (string * (vec4f -> vec4f -> vec4f)) :=
  [("blend_normal", blend_normal); ("blend_multiply", blend_multiply);
   ("blend_screen", blend_screen); ("blend_overlay", blend_overlay);
   ("blend_add", blend_add); ("blend_subtract", blend_subtract);
   ("blend_difference", blend_difference); ("blend_darken", blend_darken);
   ("blend_lighten", blend_lighten); ("blend_color_dodge", blend_color_dodge);
   ("blend_color_burn", blend_color_burn); ("blend_hard_light", blend_hard_light)].

(** Two colors with the same channels and alpha, as rationals. *)
Definition same_color (u v : vec4f) : Prop :=
  (r u == r v /\ g u == g v /\ b u == b v /\ a u == a v)%Q.
Definition same_rgb (u v : vec4f) : Prop :=
  (r u == r v /\ g u == g v /\ b u == b v)%Q.

End Blend.

(** ** Outcomes of the modelled methods

    A method returns, throws ([throw new Error(message)]; the constructor keeps
    the data of the message), or, for the two recursive traversals, runs out
    of the recursion budget the model gives it. *)

Inductive Error : Type :=
  | NodeAlreadyExists (nodeId : string)      (* Node with id "…" already exists *)
  | NodeNotFound (nodeId : string)           (* Node "…" not found *)
  | SourceNodeNotFound (nodeId : string)     (* Source node "…" not found *)
  | TargetNodeNotFound (nodeId : string)     (* Target node "…" not found *)
  | OutputNotFound (port nodeId : string)    (* Output "…" not found on node "…" *)
  | InputNotFound (port nodeId : string)     (* Input "…" not found on node "…" *)
  | WouldCreateCycle                         (* Connection would create a cycle in the graph *)
  | CycleDetected.                           (* Cycle detected in graph *)

Inductive Outcome (A : Type) : Type :=
  | Return (v : A)
  | Throw (e : Error)
  | OutOfFuel.
Arguments Return {A} v.
Arguments Throw {A} e.
Arguments OutOfFuel {A}.

(** [for (const x of l) { f(x) }] over a state [S]; a throw leaves the loop. *)
Fixpoint forEach {A S : Type} (f : A -> S -> Outcome S) (l : list A) (s : S)
    : Outcome S :=
  match l with
  | [] => Return s
  | x :: l' =>
      match f x s with
      | Return s' => forEach f l' s'
      | Throw e => Throw e
      | OutOfFuel => OutOfFuel
      end
  end.

(** [for (const x of l) { if (f(x)) return true; } return false;] *)
Fixpoint forSome {A S : Type} (f : A -> S -> Outcome (bool * S)) (l : list A)
    (s : S) : Outcome (bool * S) :=
  match l with
  | [] => Return (false, s)
  | x :: l' =>
      match f x s with
      | Return (true, s') => Return (true, s')
      | Return (false, s') => forSome f l' s'
      | Throw e => Throw e
      | OutOfFuel => OutOfFuel
      end
  end.

(** ** The graph builder (shader-graph.ts) *)

Module Graph.

(** Modelled from the spec: the declarations of [types.ts] ([NodeType],
    [DataType], [ParamDef], [ShaderNode], [Connection]) are not among the
    sources; their shape is the one the builder, the node factories and the
    tests use. *)
Inductive NodeType := source | effect | blend | transform | output.
Inductive DataType := color | alpha | vector | number | texture.

(** A parameter value ([unknown] in the source). *)
Inductive Value :=
  | VNumber (q : Q)
  | VString (s : string)
  | VBoolean (b : bool).

Record NodeInput := { input_name : string; input_type : DataType; required : bool }.
Record NodeOutput := { output_name : string; output_type : DataType }.

Record ParamDef := {
  param_name : option string;
  param_type : string;
  param_default : Value;
  param_value : Value;
  param_min : option Q;
  param_max : option Q;
}.

Record WGSLFragment := {
  functions : option string;
  main : string;
  uniforms : gmap string string;
}.

(** A [ParamDef] is a JavaScript object: [addNode] stores the shallow copy
    [{ ...node }], so the stored node refers to the same parameter objects as
    the node it was given.  A node therefore maps a parameter name to a
    reference into a store of [ParamDef] objects. *)
Abbreviation ref := nat.

Record ShaderNode := {
  node_id : string;
  node_type : NodeType;
  node_name : string;
  inputs : gmap string NodeInput;
  outputs : gmap string NodeOutput;
  params : gmap string ref;
  shader : option WGSLFragment;
}.

(** [{ id, from: { nodeId, output }, to: { nodeId, input } }] *)
Record Connection := {
  conn_id : string;
  from_nodeId : string;
  from_output : string;
  to_nodeId : string;
  to_input : string;
}.

Global Instance Connection_eq_dec : EqDecision Connection.
Proof. solve_decision. Defined.

(** The private fields of a [ShaderGraphBuilder] ([nodes] is the
    [Map<string, ShaderNode>] in insertion order, every entry stored under the
    node's own id), with the module-level [connectionIdCounter] and the store
    of parameter objects the nodes refer to. *)
Record State := {
  nodes : list ShaderNode;
  connections : list Connection;
  graphId : string;
  connectionIdCounter : nat;
  store : gmap ref ParamDef;
}.

Definition set_nodes (ns : list ShaderNode) (s : State) : State :=
  {| nodes := ns; connections := connections s; graphId := graphId s;
     connectionIdCounter := connectionIdCounter s; store := store s |}.
Definition set_connections (cs : list Connection) (s : State) : State :=
  {| nodes := nodes s; connections := cs; graphId := graphId s;
     connectionIdCounter := connectionIdCounter s; store := store s |}.
Definition set_connectionIdCounter (n : nat) (s : State) : State :=
  {| nodes := nodes s; connections := connections s; graphId := graphId s;
     connectionIdCounter := n; store := store s |}.
Definition set_store (h : gmap ref ParamDef) (s : State) : State :=
  {| nodes := nodes s; connections := connections s; graphId := graphId s;
     connectionIdCounter := connectionIdCounter s; store := h |}.

(** [new ShaderGraphBuilder(id)], next to the current counter and store. *)
Definition new_builder (id : string) (counter : nat) (h : gmap ref ParamDef)
    : State :=
  {| nodes := []; connections := []; graphId := id;
     connectionIdCounter := counter; store := h |}.

(** [this.nodes.has(nodeId)], [this.nodes.get(nodeId)], [this.nodes.keys()] *)
Definition hasNode (nodeId : string) (s : State) : bool :=
  bool_decide (nodeId ∈ node_id <$> nodes s).
Definition getNode (nodeId : string) (s : State) : option ShaderNode :=
  List.find (λ n, bool_decide (node_id n = nodeId)) (nodes s).
Definition nodeKeys (s : State) : list string := node_id <$> nodes s.

Definition getNodes (s : State) : list ShaderNode := nodes s.

(** [addNode]: throws on an id already stored, else appends the entry. *)
Definition addNode (node : ShaderNode) (s : State) : Outcome unit * State :=
  if hasNode (node_id node) s
  then (Throw (NodeAlreadyExists (node_id node)), s)
  else (Return (), set_nodes (nodes s ++ [node]) s).

(** [removeNode]: drops the connections of the node, then the node. *)
Definition removeNode (nodeId : string) (s : State) : bool * State :=
  if hasNode nodeId s then
    let s1 :=
      set_connections
        (filter (λ conn, from_nodeId conn ≠ nodeId ∧ to_nodeId conn ≠ nodeId)
                (connections s)) s in
    (true, set_nodes (filter (λ n, node_id n ≠ nodeId) (nodes s1)) s1)
  else (false, s).

(** One turn of the loop of [updateNodeParams]:
    [if (node.params[key]) { node.params[key].value = value; }] *)
Definition set_param_value (value : Value) (p : ParamDef) : ParamDef :=
  {| param_name := param_name p; param_type := param_type p;
     param_default := param_default p; param_value := value;
     param_min := param_min p; param_max := param_max p |}.

Definition updateParam (node : ShaderNode) (entry : string * Value)
    (h : gmap ref ParamDef) : gmap ref ParamDef :=
  match params node !! entry.1 with
  | Some l => alter (set_param_value entry.2) l h
  | None => h
  end.

(** [updateNodeParams]: [params] is a JavaScript object, so its entries
    ([Object.entries]) have distinct keys; the order of the turns shows only
    when two declared names of the node refer to one parameter object. *)
Definition updateNodeParams (nodeId : string) (newParams : gmap string Value)
    (s : State) : Outcome unit * State :=
  match getNode nodeId s with
  | None => (Throw (NodeNotFound nodeId), s)
  | Some node =>
      (Return (),
       set_store (foldl (λ h entry, updateParam node entry h) (store s)
                        (map_to_list newParams)) s)
  end.

(** [getInputConnections], [getOutputConnections], [getConnections] *)
Definition getInputConnections (nodeId : string) (s : State) : list Connection :=
  filter (λ c, to_nodeId c = nodeId) (connections s).
Definition getOutputConnections (nodeId : string) (s : State) : list Connection :=
  filter (λ c, from_nodeId c = nodeId) (connections s).
Definition getConnections (s : State) : list Connection := connections s.

(** *** Topology *)

(** [canReach(start, target)] inside [wouldCreateCycle]; [visited] is the set
    the closure shares between its calls, returned next to the answer.
<<
  if (start === target) return true;
  if (visited.has(start)) return false;
  visited.add(start);
  const outgoing = this.connections.filter((c) => c.from.nodeId === start);
  for (const conn of outgoing) { if (canReach(conn.to.nodeId, target)) return true; }
  return false;
>> *)
Fixpoint canReach (fuel : nat) (conns : list Connection) (target : string)
    (start : string) (visited : gset string) : Outcome (bool * gset string) :=
  match fuel with
  | O => OutOfFuel
  | S fuel' =>
      if decide (start = target) then Return (true, visited)
      else if decide (start ∈ visited) then Return (false, visited)
      else
        let outgoing := filter (λ c, from_nodeId c = start) conns in
        forSome (λ conn, canReach fuel' conns target (to_nodeId conn))
                outgoing ({[start]} ∪ visited)
  end.

(** The node ids [canReach] can be called on: the start and the targets of
    the connections.  Each nested call adds a new one of them to [visited], so
    their number bounds the depth of the recursion. *)
Definition reachUniverse (start : string) (conns : list Connection)
    : gset string :=
  {[start]} ∪ list_to_set (to_nodeId <$> conns).

(** [wouldCreateCycle(newConnection)]:
    [canReach(newConnection.to.nodeId, newConnection.from.nodeId)] from an
    empty [visited]. *)
Definition wouldCreateCycle (newConnection : Connection) (s : State)
    : Outcome bool :=
  let start := to_nodeId newConnection in
  match canReach (S (size (reachUniverse start (connections s))))
                 (connections s) (from_nodeId newConnection) start ∅ with
  | Return (b, _) => Return b
  | Throw e => Throw e
  | OutOfFuel => OutOfFuel
  end.

(** [connect]: the checks, the removal of the connection that occupies the
    input, the new connection with the next counter value, the cycle check,
    the push; in this order. *)
Definition connect (fromNodeId fromOutput toNodeId toInput : string)
    (s : State) : Outcome string * State :=
  match getNode fromNodeId s, getNode toNodeId s with
  | None, _ => (Throw (SourceNodeNotFound fromNodeId), s)
  | Some _, None => (Throw (TargetNodeNotFound toNodeId), s)
  | Some fromNode, Some toNode =>
      if decide (outputs fromNode !! fromOutput = None)
      then (Throw (OutputNotFound fromOutput fromNodeId), s)
      else if decide (inputs toNode !! toInput = None)
      then (Throw (InputNotFound toInput toNodeId), s)
      else
        let existingConn :=
          List.find (λ c, bool_decide (to_nodeId c = toNodeId ∧ to_input c = toInput))
                    (connections s) in
        let s1 :=
          match existingConn with
          | Some existing =>
              set_connections
                (filter (λ c, conn_id c ≠ conn_id existing) (connections s)) s
          | None => s
          end in
        let s2 := set_connectionIdCounter (S (connectionIdCounter s1)) s1 in
        let connection :=
          {| conn_id := "conn-" +:+ pretty (connectionIdCounter s2);
             from_nodeId := fromNodeId; from_output := fromOutput;
             to_nodeId := toNodeId; to_input := toInput |} in
        match wouldCreateCycle connection s2 with
        | Return true => (Throw WouldCreateCycle, s2)
        | Return false =>
            (Return (conn_id connection),
             set_connections (connections s2 ++ [connection]) s2)
        | Throw e => (Throw e, s2)
        | OutOfFuel => (OutOfFuel, s2)
        end
  end.

(** [connections.splice(index, 1)] at the first index whose connection has the
    id: removes that one connection. *)
Fixpoint removeFirst (connectionId : string) (cs : list Connection)
    : option (list Connection) :=
  match cs with
  | [] => None
  | c :: cs' =>
      if decide (conn_id c = connectionId) then Some cs'
      else option_map (cons c) (removeFirst connectionId cs')
  end.

Definition disconnect (connectionId : string) (s : State) : bool * State :=
  match removeFirst connectionId (connections s) with
  | None => (false, s)
  | Some cs => (true, set_connections cs s)
  end.

(** The locals of [getTopologicallySorted]. *)
Record SortState := {
  result : list ShaderNode;
  visited : gset string;
  visiting : gset string;
}.

(** The closure [visit] of [getTopologicallySorted]:
<<
  if (visited.has(nodeId)) return;
  if (visiting.has(nodeId)) throw new Error('Cycle detected in graph');
  visiting.add(nodeId);
  for (const conn of this.getInputConnections(nodeId)) visit(conn.from.nodeId);
  visiting.delete(nodeId);
  visited.add(nodeId);
  const node = this.nodes.get(nodeId);
  if (node) result.push(node);
>> *)
Fixpoint visit (fuel : nat) (s : State) (nodeId : string) (st : SortState)
    : Outcome SortState :=
  match fuel with
  | O => OutOfFuel
  | S fuel' =>
      if decide (nodeId ∈ visited st) then Return st
      else if decide (nodeId ∈ visiting st) then Throw CycleDetected
      else
        let st1 := {| result := result st; visited := visited st;
                      visiting := {[nodeId]} ∪ visiting st |} in
        match forEach (λ conn, visit fuel' s (from_nodeId conn))
                      (getInputConnections nodeId s) st1 with
        | Return st2 =>
            Return {| result := match getNode nodeId s with
                                | Some node => result st2 ++ [node]
                                | None => result st2
                                end;
                      visited := {[nodeId]} ∪ visited st2;
                      visiting := visiting st2 ∖ {[nodeId]} |}
        | Throw e => Throw e
        | OutOfFuel => OutOfFuel
        end
  end.

(** The node ids [visit] can be called on: the keys of the node map and the
    sources of the connections.  A nested call finds one more of them in
    [visiting], so their number bounds the depth of the recursion. *)
Definition sortUniverse (s : State) : gset string :=
  list_to_set (nodeKeys s) ∪ list_to_set (from_nodeId <$> connections s).

(** [getTopologicallySorted]: [visit] every key of the node map in order. *)
Definition getTopologicallySorted (s : State) : Outcome (list ShaderNode) :=
  match forEach (visit (S (size (sortUniverse s))) s) (nodeKeys s)
                {| result := []; visited := ∅; visiting := ∅ |} with
  | Return st => Return (result st)
  | Throw e => Throw e
  | OutOfFuel => OutOfFuel
  end.

(** [getSourceNodes], [getOutputNodes] *)
Definition getSourceNodes (s : State) : list ShaderNode :=
  List.filter
    (λ node,
       let inputConns := getInputConnections (node_id node) s in
       let requiredInputs :=
         List.filter (λ i, required i.2) (map_to_list (inputs node)) in
       orb (Nat.eqb (length requiredInputs) 0) (Nat.eqb (length inputConns) 0))
    (getNodes s).

Definition getOutputNodes (s : State) : list ShaderNode :=
  List.filter
    (λ node,
       andb (Nat.eqb (length (getOutputConnections (node_id node) s)) 0)
            (match node_type node with output => true | _ => false end))
    (getNodes s).

(** *** Serialization *)

(** [{ id, nodes, connections }], the value of [toJSON] and the argument of
    [fromJSON]. *)
Record SerializedGraph := {
  data_id : string;
  data_nodes : list ShaderNode;
  data_connections : list Connection;
}.

Definition toJSON (s : State) : SerializedGraph :=
  {| data_id := graphId s; data_nodes := getNodes s;
     data_connections := getConnections s |}.

(** [fromJSON]: a new builder, [addNode] for every node, then every
    connection pushed as it is. *)
Definition fromJSON (data : SerializedGraph) (counter : nat)
    (h : gmap ref ParamDef) : Outcome State :=
  match forEach (λ node b, match addNode node b with
                           | (Return _, b') => Return b'
                           | (Throw e, _) => Throw e
                           | (OutOfFuel, _) => OutOfFuel
                           end)
                (data_nodes data) (new_builder (data_id data) counter h) with
  | Return b =>
      Return (foldl (λ b conn, set_connections (connections b ++ [conn]) b)
                    b (data_connections data))
  | Throw e => Throw e
  | OutOfFuel => OutOfFuel
  end.

(** [toGraph]: the snapshot [{ id, nodes: new Map(nodes), connections: [...] }]. *)
Record ShaderGraph := {
  graph_id : string;
  graph_nodes : list ShaderNode;
  graph_connections : list Connection;
}.

Definition toGraph (s : State) : ShaderGraph :=
  {| graph_id := graphId s; graph_nodes := nodes s;
     graph_connections := connections s |}.

End Graph.

(** ** The pass merger (pass-merger.ts) *)

Module Merger.

Import Graph.

(** A compiled pass, as the tests of the merger and of the compiler build and
    read it: [{ id, nodes, shader, inputs, output, uniforms }]. *)
Record CompiledPass := {
  pass_id : string;
  pass_nodes : list string;
  pass_shader : string;
  pass_inputs : list string;
  pass_output : string;
  pass_uniforms : gmap string Value;
}.

Inductive MergeCategory := cat_color | cat_transform | cat_blur | cat_blend | cat_unknown.

Global Instance MergeCategory_eq_dec : EqDecision MergeCategory.
Proof. solve_decision. Defined.

(** [name.includes(pattern)] *)
Fixpoint includes (name pattern : string) : bool :=
  if String.prefix pattern name then true
  else match name with
       | EmptyString => false
       | String _ name' => includes name' pattern
       end.

Definition includesAny (name : string) (patterns : list string) : bool :=
  existsb (includes name) patterns.

(** Modelled from the spec: [getNodeCategory] of pass-merger.ts, which is not
    among the sources.  "Node→category classification is name-pattern based:
    color (brightness/contrast/saturation/opacity and compound color-math
    names), transform (scale/rotate/translate/transform/flip/crop), blur (any
    name containing "blur"), blend (any name containing "blend"), else
    unknown." *)
Definition getNodeCategory (name : string) : MergeCategory :=
  if includesAny name ["brightness"; "contrast"; "saturation"; "opacity"]
  then cat_color
  else if includesAny name ["scale"; "rotate"; "translate"; "transform"; "flip"; "crop"]
  then cat_transform
  else if includes name "blur" then cat_blur
  else if includes name "blend" then cat_blend
  else cat_unknown.

(** Modelled from the spec: [getPassCategory], not among the sources.  "Pass
    category = the category of its first categorizable contributing node, or
    unknown if none match." *)
Fixpoint firstCategory (nodeIds : list string) : MergeCategory :=
  match nodeIds with
  | [] => cat_unknown
  | n :: rest =>
      match getNodeCategory n with
      | cat_unknown => firstCategory rest
      | c => c
      end
  end.

Definition getPassCategory (pass : CompiledPass) : MergeCategory :=
  firstCategory (pass_nodes pass).

(** Modelled from the spec: [canMergePasses], not among the sources.  "Merge
    eligibility between a pass A and immediately following pass B requires ALL
    of: B's inputs is exactly the single-element list [A.output]; A.category
    == B.category, and that category is not unknown." *)
Definition canMergePasses (passA passB : CompiledPass) : bool :=
  bool_decide (pass_inputs passB = [pass_output passA])
  && bool_decide (getPassCategory passA = getPassCategory passB)
  && negb (bool_decide (getPassCategory passA = cat_unknown)).

(** Modelled from the spec: [mergeShaderCode], not among the sources.  "The
    merged shader source concatenates A's and B's function/main code blocks in
    order." *)
Definition mergeShaderCode (shaderA shaderB : string) : string :=
  shaderA +:+ shaderB.

(** Modelled from the spec: [mergeTwoPasses], not among the sources.  "A new
    pass whose nodes list is A.nodes concatenated with B.nodes, whose inputs
    is A's inputs, whose output is B's output, whose id is
    merged-{A.id}-{B.id}, and whose uniforms is the union of A's and B's
    uniform maps namespaced by pass index (pass0_<name>, pass1_<name>)." *)
Definition mergeTwoPasses (passA passB : CompiledPass) : CompiledPass :=
  {| pass_id := "merged-" +:+ pass_id passA +:+ "-" +:+ pass_id passB;
     pass_nodes := pass_nodes passA ++ pass_nodes passB;
     pass_shader := mergeShaderCode (pass_shader passA) (pass_shader passB);
     pass_inputs := pass_inputs passA;
     pass_output := pass_output passB;
     pass_uniforms :=
       kmap (String.app "pass0_") (pass_uniforms passA)
       ∪ kmap (String.app "pass1_") (pass_uniforms passB) |}.

(** Modelled from the spec: [PassMerger.merge], not among the sources.
    "Merging is applied greedily left-to-right across the whole pass sequence,
    re-checking eligibility against the newly merged pass before considering
    the next candidate."  [mergeInto current rest] carries the pass under
    construction. *)
Fixpoint mergeInto (current : CompiledPass) (rest : list CompiledPass)
    : list CompiledPass :=
  match rest with
  | [] => [current]
  | next :: rest' =>
      if canMergePasses current next
      then mergeInto (mergeTwoPasses current next) rest'
      else current :: mergeInto next rest'
  end.

Definition merge (passes : list CompiledPass) : list CompiledPass :=
  match passes with
  | [] => []
  | first :: rest => mergeInto first rest
  end.

End Merger.

(** ** The graph compiler (compiler.ts) *)

Module Compiler.

Import Graph Merger.

(** The sentinel output of the final pass. *)
Definition screen : string := "screen".

(** Modelled from the spec: the "synthesized intermediate-texture identifier
    unique to that pass" of compiler.ts, which is not among the sources; the
    identifier is built from the position of the pass, in the shape the
    merger tests use ([pass-0] writes [temp-1]). *)
Definition passId (index : nat) : string := "pass-" +:+ pretty index.
Definition intermediateTexture (index : nat) : string :=
  "temp-" +:+ pretty (S index).

(** "Uniforms for a pass are copied verbatim from the contributing node's
    current parameter values, keyed by parameter name." *)
Definition collectUniforms (node : ShaderNode) (s : State) : gmap string Value :=
  omap (λ l, param_value <$> store s !! l) (params node).

(** The state of the walk: the passes emitted so far and, for every node
    walked, the resource that carries its output. *)
Record Walk := {
  passes : list CompiledPass;
  resources : gmap string string;
}.

Section compile.

(** Modelled from the spec: which nodes are "purely structural" and emit no
    pass.  The spec does not say which; the walk takes the test as a
    parameter. *)
Variable isStructural : ShaderNode → bool.

(** Modelled from the spec: one step of the walk of [compile].  "Emits exactly
    one CompiledPass per node that is not purely structural, in traversal
    order.  Each pass's inputs list is the resource identifier(s) feeding that
    node — either the textual id of a prior pass's output, or the name of a
    graph source.  The final pass in traversal order has its output forced to
    the sentinel "screen"; every other pass's output is a synthesized
    intermediate-texture identifier unique to that pass." *)
Definition compileNode (s : State) (total : nat) (w : Walk) (node : ShaderNode)
    : Walk :=
  if isStructural node then
    {| passes := passes w;
       resources := <[node_id node := node_id node]> (resources w) |}
  else
    let index := length (passes w) in
    let out := if decide (S index = total) then screen
               else intermediateTexture index in
    let pass :=
      {| pass_id := passId index;
         pass_nodes := [node_id node];
         pass_shader := match shader node with
                        | Some frag => main frag
                        | None => EmptyString
                        end;
         pass_inputs :=
           omap (λ conn, resources w !! from_nodeId conn)
                (getInputConnections (node_id node) s);
         pass_output := out;
         pass_uniforms := collectUniforms node s |} in
    {| passes := passes w ++ [pass];
       resources := <[node_id node := out]> (resources w) |}.

(** Modelled from the spec: [GraphCompiler.compile], not among the sources.
    "Walks the topologically sorted node list". *)
Definition compile (s : State) : Outcome (list CompiledPass) :=
  match getTopologicallySorted s with
  | Return sorted =>
      let total := length (List.filter (λ n, negb (isStructural n)) sorted) in
      Return (passes (foldl (compileNode s total) {| passes := []; resources := ∅ |} sorted))
  | Throw e => Throw e
  | OutOfFuel => OutOfFuel
  end.

End compile.

(** The structural nodes as the compiler test shows them: a source node emits
    no pass, its id is read in the [inputs] of the pass it feeds; the graph
    Source → Output has a last pass, the one of the output node. *)
Definition isSourceNode (node : ShaderNode) : bool :=
  match node_type node with source => true | _ => false end.

End Compiler.

(** ** Graph notions the properties are stated with *)

Module GraphProps.

Import Graph.

(** The connection [c] targets the input port [(nodeId, input)]. *)
Definition targets (nodeId input : string) (c : Connection) : Prop :=
  to_nodeId c = nodeId ∧ to_input c = input.

Global Instance targets_dec nodeId input c : Decision (targets nodeId input c).
Proof. unfold targets. apply _. Defined.

(** At most one connection targets any input port. *)
Definition inputUnique (cs : list Connection) : Prop :=
  ∀ nodeId input, length (filter (targets nodeId input) cs) ≤ 1.

(** [edge cs x y]: some connection of [cs] goes from node [x] to node [y]. *)
Definition edge (cs : list Connection) (x y : string) : Prop :=
  ∃ c, c ∈ cs ∧ from_nodeId c = x ∧ to_nodeId c = y.

(** The connection list has no directed cycle. *)
Definition acyclic (cs : list Connection) : Prop :=
  ∀ x, ¬ tc (edge cs) x x.

(** The representation invariant of the node map: distinct keys. *)
Definition distinctIds (ns : list ShaderNode) : Prop :=
  NoDup (node_id <$> ns).

(** [x] comes strictly before [y] in [l]. *)
Definition before {A : Type} (x y : A) (l : list A) : Prop :=
  ∃ l1 l2 l3, l = l1 ++ x :: l2 ++ y :: l3.

(** A connection endpoint that names no stored node. *)
Definition dangling (ns : list ShaderNode) (c : Connection) : Prop :=
  from_nodeId c ∉ node_id <$> ns ∨ to_nodeId c ∉ node_id <$> ns.

(** [node.params[key].value], read through the store. *)
Definition paramValue (node : ShaderNode) (key : string) (s : State)
    : option Value :=
  l ← params node !! key; param_value <$> store s !! l.

(** The invariant of the locals of [getTopologicallySorted]: [result] holds
    the stored nodes whose id is in [visited], once each, every one of them
    after the stored producers of its inputs; no id is in both sets. *)
Record sortInv (s : State) (st : SortState) : Prop := {
  inv_result_stored :
    ∀ m, m ∈ result st → m ∈ nodes s ∧ node_id m ∈ visited st;
  inv_visited_result :
    ∀ m, m ∈ nodes s → node_id m ∈ visited st → m ∈ result st;
  inv_nodup : NoDup (result st);
  inv_order :
    ∀ c m n, c ∈ connections s → m ∈ nodes s → node_id m = from_nodeId c →
             n ∈ result st → node_id n = to_nodeId c →
             before m n (result st);
  inv_disjoint : visited st ## visiting st;
}.

(** What a returning [visit nodeId] does to the locals. *)
Definition visitPost (s : State) (nodeId : string) (st st' : SortState) : Prop :=
  visiting st' = visiting st
  ∧ visited st ⊆ visited st'
  ∧ nodeId ∈ visited st'
  ∧ sortInv s st'.

(** Every connection joins two stored nodes. *)
Definition noDangling (s : State) : Prop :=
  ∀ c, c ∈ connections s → ¬ dangling (nodes s) c.

(** The connection ids are distinct and were issued by the counter: each is
    [conn-k] for some [k] up to the current value. *)
Definition idsIssued (s : State) : Prop :=
  NoDup (conn_id <$> connections s)
  ∧ ∀ c, c ∈ connections s →
      ∃ k, k ≤ connectionIdCounter s ∧ conn_id c = "conn-" +:+ pretty k.

(** A call of the mutating interface of the builder, and the state a
    sequence of calls leaves (whatever each call returns or throws). *)
Inductive Call :=
  | CallAddNode (node : ShaderNode)
  | CallRemoveNode (nodeId : string)
  | CallUpdateNodeParams (nodeId : string) (newParams : gmap string Value)
  | CallConnect (fromNodeId fromOutput toNodeId toInput : string)
  | CallDisconnect (connectionId : string).

Definition call (c : Call) (s : State) : State :=
  match c with
  | CallAddNode node => (addNode node s).2
  | CallRemoveNode nodeId => (removeNode nodeId s).2
  | CallUpdateNodeParams nodeId newParams => (updateNodeParams nodeId newParams s).2
  | CallConnect f o t i => (connect f o t i s).2
  | CallDisconnect connectionId => (disconnect connectionId s).2
  end.

Definition calls (cs : list Call) (s : State) : State :=
  foldl (λ s c, call c s) s cs.

(** What [visit] keeps about the ids it has finished, stored or not: they
    can be ranked so that every connection into a finished id comes from a
    finished id of lower rank. *)
Definition upstreamRanked (s : State) (st : SortState) : Prop :=
  visited st ## visiting st
  ∧ ∃ (rank : string → nat) (bound : nat),
      (∀ v, v ∈ visited st → rank v < bound)
      ∧ ∀ c, c ∈ connections s → to_nodeId c ∈ visited st →
             from_nodeId c ∈ visited st
             ∧ rank (from_nodeId c) < rank (to_nodeId c).

(** The builder is well formed: distinct node ids, no directed cycle, no
    dangling connection, at most one connection per input, connection ids
    issued by the counter. *)
Definition wellFormed (s : State) : Prop :=
  distinctIds (nodes s) ∧ acyclic (connections s) ∧ noDangling s
  ∧ inputUnique (connections s) ∧ idsIssued s.

End GraphProps.

(** ** The blend node factory (blend-node.ts) *)

Module BlendNode.

Import Graph.

(** Modelled from the spec: the [BlendMode] string union of [types.ts] is not
    among the sources; its members are the entries of [BLEND_MODES] and the
    keys of the [modeMap] of [getBlendModeCode]. *)
Inductive BlendMode :=
  | mode_normal | mode_multiply | mode_screen | mode_overlay | mode_add
  | mode_subtract | mode_difference | mode_darken | mode_lighten
  | mode_color_dodge | mode_color_burn | mode_hard_light | mode_soft_light.

Global Instance BlendMode_eq_dec : EqDecision BlendMode.
Proof. solve_decision. Defined.

(** The string a mode is in the source. *)
Definition modeString (mode : BlendMode) : string :=
  match mode with
  | mode_normal => "normal"
  | mode_multiply => "multiply"
  | mode_screen => "screen"
  | mode_overlay => "overlay"
  | mode_add => "add"
  | mode_subtract => "subtract"
  | mode_difference => "difference"
  | mode_darken => "darken"
  | mode_lighten => "lighten"
  | mode_color_dodge => "color-dodge"
  | mode_color_burn => "color-burn"
  | mode_hard_light => "hard-light"
  | mode_soft_light => "soft-light"
  end.

Definition BLEND_MODES : list BlendMode :=
  [mode_normal; mode_multiply; mode_screen; mode_overlay; mode_add;
   mode_subtract; mode_difference; mode_darken; mode_lighten;
   mode_color_dodge; mode_color_burn; mode_hard_light; mode_soft_light].

(** [getBlendModeCode]: the [modeMap] has an entry for every mode, so the
    fallback [|| 'blend_normal'] is never taken on a [BlendMode]. *)
Definition getBlendModeCode (mode : BlendMode) : string :=
  match mode with
  | mode_normal => "blend_normal"
  | mode_multiply => "blend_multiply"
  | mode_screen => "blend_screen"
  | mode_overlay => "blend_overlay"
  | mode_add => "blend_add"
  | mode_subtract => "blend_subtract"
  | mode_difference => "blend_difference"
  | mode_darken => "blend_darken"
  | mode_lighten => "blend_lighten"
  | mode_color_dodge => "blend_color_dodge"
  | mode_color_burn => "blend_color_burn"
  | mode_hard_light => "blend_hard_light"
  | mode_soft_light => "blend_soft_light"
  end.

Definition blendInputs : gmap string NodeInput :=
  {[ "base" := {| input_name := "base"; input_type := color; required := true |};
     "blend" := {| input_name := "blend"; input_type := color; required := true |} ]}.
Definition blendOutputs : gmap string NodeOutput :=
  {[ "output" := {| output_name := "output"; output_type := color |} ]}.

(** The [main] template of the shader, around [${blendFn}]. *)
Definition blendMain (blendFn : string) : string :=
  "
  let baseColor = textureSample(baseTexture, texSampler, uv);
  let blendColor = textureSample(blendTexture, texSampler, uv);

  // Apply blend mode
  let blended = " +:+ blendFn +:+ "(baseColor, blendColor);

  // Apply opacity and alpha composite
  let finalBlend = vec4f(blended.rgb, blended.a * params.opacity);
  output = alpha_composite_over(baseColor, finalBlend);
".

Definition modeParam (mode : BlendMode) : ParamDef :=
  {| param_name := Some "mode"; param_type := "string";
     param_default := VString "normal"; param_value := VString (modeString mode);
     param_min := None; param_max := None |}.
Definition opacityParam (opacity : Q) : ParamDef :=
  {| param_name := Some "opacity"; param_type := "number";
     param_default := VNumber 1; param_value := VNumber opacity;
     param_min := Some 0%Q; param_max := Some 1%Q |}.

Section blend_node.

(** The text of the constant [BLEND_FUNCTIONS_WGSL]. *)
Variable BLEND_FUNCTIONS_WGSL : string.

(** [createBlendNode(id, { mode, opacity })]: the object literal makes two
    new parameter objects, so the node comes with the store that holds them
    at two references no object had before. *)
Definition createBlendNode (id : string) (mode : option BlendMode)
    (opacity : option Q) (h : gmap ref ParamDef)
    : ShaderNode * gmap ref ParamDef :=
  let mode := default mode_normal mode in
  let opacity := default 1%Q opacity in
  let blendFn := getBlendModeCode mode in
  let modeRef := fresh (dom h) in
  let h1 := <[modeRef := modeParam mode]> h in
  let opacityRef := fresh (dom h1) in
  let h2 := <[opacityRef := opacityParam opacity]> h1 in
  ({| node_id := id; node_type := blend; node_name := "blend";
      inputs := blendInputs; outputs := blendOutputs;
      params := {[ "mode" := modeRef; "opacity" := opacityRef ]};
      shader := Some {| functions := Some BLEND_FUNCTIONS_WGSL;
                        main := blendMain blendFn;
                        uniforms := {[ "opacity" := "f32" ]} |} |},
   h2).

(** [createMultiplyBlendNode(id, { opacity })] and the eleven others of its
    kind: [createBlendNode(id, { mode: '...', opacity: params?.opacity })]. *)
Definition createModeBlendNode (mode : BlendMode) (id : string)
    (opacity : option Q) (h : gmap ref ParamDef)
    : ShaderNode * gmap ref ParamDef :=
  createBlendNode id (Some mode) opacity h.

End blend_node.

End BlendNode.

(** ** Fixtures of the test suites *)

Module Fixtures.

Import Graph Merger.

Definition textureOutput : gmap string NodeOutput :=
  {[ "output" := {| output_name := "output"; output_type := texture |} ]}.
Definition textureInput : gmap string NodeInput :=
  {[ "input" := {| input_name := "input"; input_type := texture; required := true |} ]}.

(** [{ type: 'number', value: 0, default: 0, min: -1, max: 1 }] *)
Definition valueParam : ParamDef :=
  {| param_name := None; param_type := "number";
     param_default := VNumber 0; param_value := VNumber 0;
     param_min := Some (-1)%Q; param_max := Some 1%Q |}.

(** [createSourceNode], [createEffectNode], [createOutputNode] of
    shader-graph.test.ts; the effect node is given the reference of its
    [value] parameter object. *)
Definition createSourceNode (id : string) : ShaderNode :=
  {| node_id := id; node_type := source; node_name := "Source";
     inputs := ∅; outputs := textureOutput; params := ∅; shader := None |}.
Definition createEffectNode (id name : string) (valueRef : ref) : ShaderNode :=
  {| node_id := id; node_type := effect; node_name := name;
     inputs := textureInput; outputs := textureOutput;
     params := {[ "value" := valueRef ]}; shader := None |}.
Definition createOutputNode (id : string) : ShaderNode :=
  {| node_id := id; node_type := output; node_name := "Output";
     inputs := textureInput; outputs := ∅; params := ∅; shader := None |}.

(** The state after a call, whatever its outcome. *)
Definition after {A : Type} (call : State → A * State) (s : State) : State :=
  (call s).2.

(** A fresh builder with the two parameter objects of two effect nodes. *)
Definition emptyGraph : State :=
  new_builder "graph" 0 {[ 0 := valueParam; 1 := valueParam ]}.

(** source-1 → effect-1 → effect-2 → output-1, built as the topology test
    builds it. *)
Definition chainNodes : State :=
  after (addNode (createOutputNode "output-1"))
    (after (addNode (createEffectNode "effect-2" "Contrast" 1))
       (after (addNode (createEffectNode "effect-1" "Brightness" 0))
          (after (addNode (createSourceNode "source-1")) emptyGraph))).
Definition chainGraph : State :=
  after (connect "effect-2" "output" "output-1" "input")
    (after (connect "effect-1" "output" "effect-2" "input")
       (after (connect "source-1" "output" "effect-1" "input") chainNodes)).

(** The position of a node of the chain. *)
Definition chainRank (nodeId : string) : nat :=
  if decide (nodeId = "source-1") then 0
  else if decide (nodeId = "effect-1") then 1
  else if decide (nodeId = "effect-2") then 2
  else 3.


(** The two effect nodes of the cycle test; effect-1 has a second input. *)
Definition cycleTestNodes : State :=
  after (addNode (createEffectNode "effect-2" "Contrast" 1))
    (after (addNode
              {| node_id := "effect-1"; node_type := effect; node_name := "Brightness";
                 inputs := <["input2" := {| input_name := "input2"; input_type := texture;
                                             required := false |}]> textureInput;
                 outputs := textureOutput; params := {[ "value" := 0 ]};
                 shader := None |})
       emptyGraph).

(** effect-1 → effect-2 → effect-1: a graph with a directed cycle, as
    [fromJSON] restores it from data. *)
Definition cyclicGraph : State :=
  set_connections
    [{| conn_id := "conn-1"; from_nodeId := "effect-1"; from_output := "output";
        to_nodeId := "effect-2"; to_input := "input" |};
     {| conn_id := "conn-2"; from_nodeId := "effect-2"; from_output := "output";
        to_nodeId := "effect-1"; to_input := "input2" |}]
    cycleTestNodes.

(** Source → Output, the graph of the screen-output test of the compiler. *)
Definition sourceToOutput : State :=
  after (connect "source-1" "output" "output-1" "input")
    (after (addNode (createOutputNode "output-1"))
       (after (addNode (createSourceNode "source-1")) emptyGraph)).

(** A serialized graph with a connection from a node that is not in the node
    list. *)
Definition danglingData : SerializedGraph :=
  {| data_id := "graph";
     data_nodes := [createEffectNode "effect-1" "Brightness" 0];
     data_connections :=
       [{| conn_id := "conn-1"; from_nodeId := "ghost"; from_output := "output";
           to_nodeId := "effect-1"; to_input := "input" |}] |}.

(** Passes of pass-merger.test.ts. *)
Definition brightnessPass : CompiledPass :=
  {| pass_id := "pass-0"; pass_nodes := ["brightness-1"]; pass_shader := "shader-a";
     pass_inputs := ["source"]; pass_output := "temp-1"; pass_uniforms := ∅ |}.
Definition brightnessAmountPass : CompiledPass :=
  {| pass_id := "pass-0"; pass_nodes := ["brightness-1"]; pass_shader := "shader-a";
     pass_inputs := ["source"]; pass_output := "temp-1";
     pass_uniforms := {[ "amount" := VNumber (6 # 5) ]} |}.
Definition contrastAmountPass : CompiledPass :=
  {| pass_id := "pass-1"; pass_nodes := ["contrast-1"]; pass_shader := "shader-b";
     pass_inputs := ["temp-1"]; pass_output := "screen";
     pass_uniforms := {[ "amount" := VNumber (3 # 2) ]} |}.
Definition saturationPass : CompiledPass :=
  {| pass_id := "pass-2"; pass_nodes := ["saturation-1"]; pass_shader := "shader-c";
     pass_inputs := ["temp-2"]; pass_output := "screen";
     pass_uniforms := {[ "saturation" := VNumber (4 # 5) ]} |}.
Definition contrastPass : CompiledPass :=
  {| pass_id := "pass-1"; pass_nodes := ["contrast-1"]; pass_shader := "shader-b";
     pass_inputs := ["temp-1"]; pass_output := "temp-2";
     pass_uniforms := {[ "contrast" := VNumber (3 # 2) ]} |}.
Definition otherSourcePass : CompiledPass :=
  {| pass_id := "pass-1"; pass_nodes := ["contrast-1"]; pass_shader := "shader-b";
     pass_inputs := ["other-source"]; pass_output := "temp-2"; pass_uniforms := ∅ |}.
Definition scalePass : CompiledPass :=
  {| pass_id := "pass-1"; pass_nodes := ["scale-1"]; pass_shader := "shader-b";
     pass_inputs := ["temp-1"]; pass_output := "screen"; pass_uniforms := ∅ |}.
Definition blendPass : CompiledPass :=
  {| pass_id := "pass-1"; pass_nodes := ["blend-1"]; pass_shader := "shader-b";
     pass_inputs := ["temp-1"; "other-source"]; pass_output := "temp-2";
     pass_uniforms := ∅ |}.

End Fixtures.

(** * Properties *)

(** ** Blend math *)

Module BlendFacts.

Import Blend.
Local Open Scope Q_scope.



(** C10: whenever the output alpha [blend.a + base.a * (1 - blend.a)] is not
    positive, [alpha_composite_over] returns the all-zero color: the guard
    returns before the division by the output alpha. *)
Theorem alpha_composite_over_guard (base blend : vec4f)
    (Hzero : a blend + a base * (1 - a blend) <= 0) :
  alpha_composite_over base blend = Vec4f 0 0 0 0.
Proof.
  unfold alpha_composite_over. cbv zeta.
  destruct (Qle_bool (outAlpha base blend) 0) eqn:Hguard; [reflexivity|].
  assert (Qle_bool (outAlpha base blend) 0 = true) as Htrue
    by (apply Qle_bool_iff; exact Hzero).
  congruence.
Qed.

Lemma alpha_composite_over_guard_witness :
  alpha_composite_over (Vec4f 1 (1 # 2) 0 0) (Vec4f 0 1 (1 # 3) 0) = Vec4f 0 0 0 0.
Proof.
  apply (alpha_composite_over_guard (Vec4f 1 (1 # 2) 0 0) (Vec4f 0 1 (1 # 3) 0)).
  vm_compute. discriminate.
Defined.





End BlendFacts.

(** ** Pass merger *)

Module MergerFacts.

Import Graph Merger.

Lemma canMergePasses_true (passA passB : CompiledPass) :
  canMergePasses passA passB = true ↔
  pass_inputs passB = [pass_output passA]
  ∧ getPassCategory passA = getPassCategory passB
  ∧ getPassCategory passA ≠ cat_unknown.
Proof.
  unfold canMergePasses.
  rewrite !andb_true_iff, negb_true_iff, !bool_decide_eq_true, bool_decide_eq_false.
  tauto.
Qed.

Lemma canMergePasses_needs_one_input (passA passB : CompiledPass) :
  length (pass_inputs passB) ≠ 1 → canMergePasses passA passB = false.
Proof.
  intros Hlen. destruct (canMergePasses passA passB) eqn:Hcan; [|done].
  apply canMergePasses_true in Hcan as (Hin & _). rewrite Hin in Hlen. done.
Qed.

(** A pass that no pass can take as its consumer starts an output pass of its
    own: the passes before it are merged among themselves. *)
Lemma mergeInto_split (p : CompiledPass) (after : list CompiledPass) :
  (∀ current, canMergePasses current p = false) →
  ∀ before current,
    mergeInto current (before ++ p :: after)
    = mergeInto current before ++ mergeInto p after.
Proof.
  intros Hp before. induction before as [|q before IH]; intros current; simpl.
  - by rewrite Hp.
  - destruct (canMergePasses current q); [apply IH|].
    simpl. by rewrite IH.
Qed.

Lemma merge_split (p : CompiledPass) (before after : list CompiledPass) :
  (∀ current, canMergePasses current p = false) →
  merge (before ++ p :: after) = merge before ++ merge (p :: after).
Proof.
  intros Hp. destruct before as [|q before]; [done|].
  simpl. by apply mergeInto_split.
Qed.

(** The first pass [mergeInto] gives is the pass it was given, with the
    passes fused into it: it reads the same inputs and its nodes start with the
    nodes of that pass. *)
Lemma mergeInto_head (rest : list CompiledPass) :
  ∀ current, ∃ q others,
    mergeInto current rest = q :: others
    ∧ pass_inputs q = pass_inputs current
    ∧ pass_nodes current `prefix_of` pass_nodes q.
Proof.
  induction rest as [|next rest IH]; intros current; simpl.
  - by exists current, [].
  - destruct (canMergePasses current next).
    + destruct (IH (mergeTwoPasses current next)) as (q & others & -> & Hin & Hpre).
      exists q, others. split; [done|]. split; [done|].
      etrans; [|exact Hpre]. simpl. by apply prefix_app_r.
    + by exists current, (mergeInto next rest).
Qed.

(** C3: the pass built by [mergeTwoPasses]: nodes of A then of B, inputs of A,
    output of B, id [merged-<A.id>-<B.id>], and as uniforms exactly the
    entries [pass0_<name>] of A and [pass1_<name>] of B. *)
Theorem mergeTwoPasses_fields (passA passB : CompiledPass) :
  let merged := mergeTwoPasses passA passB in
  pass_nodes merged = pass_nodes passA ++ pass_nodes passB
  ∧ pass_inputs merged = pass_inputs passA
  ∧ pass_output merged = pass_output passB
  ∧ pass_id merged = "merged-" +:+ pass_id passA +:+ "-" +:+ pass_id passB
  ∧ ∀ key v,
      pass_uniforms merged !! key = Some v ↔
      (∃ name, key = "pass0_" +:+ name ∧ pass_uniforms passA !! name = Some v)
      ∨ (∃ name, key = "pass1_" +:+ name ∧ pass_uniforms passB !! name = Some v).
Proof.
  cbv zeta. repeat split; try reflexivity.
  - cbn [pass_uniforms mergeTwoPasses]. rewrite lookup_union_Some_raw.
    rewrite !lookup_kmap_Some by apply _. intros [Ha|[_ Hb]]; [by left|by right].
  - cbn [pass_uniforms mergeTwoPasses]. rewrite lookup_union_Some_raw.
    rewrite !lookup_kmap_Some, lookup_kmap_None by apply _.
    intros [Ha|(name & -> & Hb)]; [by left|right]. split; [|by eauto].
    intros i Hi. discriminate Hi.
Qed.

Lemma mergeTwoPasses_fields_witness :
  let merged :=
    mergeTwoPasses Fixtures.brightnessAmountPass Fixtures.contrastAmountPass in
  pass_nodes merged = ["brightness-1"; "contrast-1"]
  ∧ pass_inputs merged = ["source"]
  ∧ pass_output merged = "screen"
  ∧ pass_id merged = "merged-pass-0-pass-1"
  ∧ pass_uniforms merged !! "pass0_amount" = Some (VNumber (6 # 5))
  ∧ pass_uniforms merged !! "pass1_amount" = Some (VNumber (3 # 2))
  ∧ pass_uniforms merged !! "amount" = None.
Proof.
  destruct (mergeTwoPasses_fields Fixtures.brightnessAmountPass
              Fixtures.contrastAmountPass)
    as (Hnodes & Hinputs & Houtput & Hid & Huniforms).
  split; [exact Hnodes|]. split; [exact Hinputs|]. split; [exact Houtput|].
  split; [exact Hid|]. split; [|split].
  - apply Huniforms. left. exists "amount". split; reflexivity.
  - apply Huniforms. right. exists "amount". split; reflexivity.
  - apply eq_None_not_Some. intros [v Hv]. apply Huniforms in Hv.
    destruct Hv as [(name & Hkey & _)|(name & Hkey & _)]; discriminate Hkey.
Defined.

(** C4: [canMergePasses A B] holds exactly when the inputs of B are the one
    output of A and the two passes have the same category, which is not
    [unknown]; so a pass whose inputs are not exactly one is never the
    consumer of a merge: merging a list splits in front of it, and the pass
    that starts there reads the inputs of B and begins with the nodes of B. *)
Theorem canMergePasses_iff (passA passB : CompiledPass)
    (before after : list CompiledPass) :
  (canMergePasses passA passB = true ↔
     pass_inputs passB = [pass_output passA]
     ∧ getPassCategory passA = getPassCategory passB
     ∧ getPassCategory passA ≠ cat_unknown)
  ∧ (length (pass_inputs passB) ≠ 1 →
       canMergePasses passA passB = false
       ∧ ∃ q others,
           merge (before ++ passB :: after) = merge before ++ q :: others
           ∧ pass_inputs q = pass_inputs passB
           ∧ pass_nodes passB `prefix_of` pass_nodes q).
Proof.
  split; [apply canMergePasses_true|].
  intros Hlen. split; [by apply canMergePasses_needs_one_input|].
  destruct (mergeInto_head after passB) as (q & others & Hq & Hin & Hpre).
  exists q, others. split; [|done].
  rewrite merge_split; [by rewrite <- Hq|].
  intros current. by apply canMergePasses_needs_one_input.
Qed.

Lemma canMergePasses_iff_witness :
  canMergePasses Fixtures.brightnessPass Fixtures.blendPass = false
  ∧ ∃ q others,
      merge ([Fixtures.brightnessPass] ++ Fixtures.blendPass :: [])
      = merge [Fixtures.brightnessPass] ++ q :: others
      ∧ pass_inputs q = pass_inputs Fixtures.blendPass
      ∧ pass_nodes Fixtures.blendPass `prefix_of` pass_nodes q.
Proof.
  apply (canMergePasses_iff Fixtures.brightnessPass Fixtures.blendPass
           [Fixtures.brightnessPass] []).
  simpl. lia.
Defined.

End MergerFacts.

(** ** Graph builder *)

Module GraphFacts.

Import Graph GraphProps.

(** *** The node map *)

Lemma getNode_Some (s : State) (nodeId : string) (node : ShaderNode) :
  getNode nodeId s = Some node → node ∈ nodes s ∧ node_id node = nodeId.
Proof.
  unfold getNode. intros Hfind. apply find_some in Hfind as [Hin Hid].
  apply bool_decide_eq_true in Hid. by rewrite <- list_elem_of_In in Hin.
Qed.

Lemma getNode_None (s : State) (nodeId : string) :
  getNode nodeId s = None → nodeId ∉ node_id <$> nodes s.
Proof.
  unfold getNode. intros Hfind [node [-> Hin]]%list_elem_of_fmap.
  apply list_elem_of_In in Hin.
  pose proof (find_none _ _ Hfind _ Hin) as Hno.
  by apply bool_decide_eq_false in Hno.
Qed.

Lemma getNode_stored (s : State) (node : ShaderNode) :
  distinctIds (nodes s) → node ∈ nodes s → getNode (node_id node) s = Some node.
Proof.
  unfold getNode, distinctIds. induction (nodes s) as [|n ns IH]; intros Hnd Hin.
  - by apply elem_of_nil in Hin.
  - rewrite fmap_cons in Hnd. apply NoDup_cons in Hnd as [Hn Hnd]. simpl.
    case_bool_decide as Heq.
    + apply elem_of_cons in Hin as [->|Hin]; [done|].
      exfalso. apply Hn. rewrite Heq. apply list_elem_of_fmap. eauto.
    + apply elem_of_cons in Hin as [->|Hin]; [done|]. by apply IH.
Qed.

(** *** At most one connection per input *)

Lemma inputUnique_sublist (cs cs' : list Connection) :
  cs' `sublist_of` cs → inputUnique cs → inputUnique cs'.
Proof.
  intros Hsub Hinv nodeId input.
  etrans; [|apply (Hinv nodeId input)].
  clear Hinv. induction Hsub as [|c l1 l2 _ IH|c l1 l2 _ IH]; [done| |].
  - rewrite !filter_cons. case_decide; simpl; lia.
  - rewrite filter_cons. case_decide; simpl; lia.
Qed.

Lemma removeFirst_sublist (connectionId : string) (cs cs' : list Connection) :
  removeFirst connectionId cs = Some cs' → cs' `sublist_of` cs.
Proof.
  revert cs'. induction cs as [|c cs IH]; intros cs'; simpl; [done|].
  case_decide.
  - intros [= <-]. by apply sublist_cons.
  - destruct (removeFirst connectionId cs) as [cs0|]; [|done].
    intros [= <-]. apply sublist_skip. by apply IH.
Qed.

(** After the removal [connect] performs, no connection targets the input. *)
Lemma connect_input_cleared (cs : list Connection) (nodeId input : string) :
  inputUnique cs →
  filter (targets nodeId input)
    (match List.find (λ c, bool_decide (to_nodeId c = nodeId ∧ to_input c = input)) cs with
     | Some existing => filter (λ c, conn_id c ≠ conn_id existing) cs
     | None => cs
     end) = [].
Proof.
  intros Hinv.
  destruct (List.find _ cs) as [existing|] eqn:Hfind.
  - apply find_some in Hfind as [Hin Ht]. apply bool_decide_eq_true in Ht.
    apply list_elem_of_In in Hin.
    assert (filter (targets nodeId input) cs = [existing]) as Hone.
    { pose proof (Hinv nodeId input) as Hlen.
      assert (existing ∈ filter (targets nodeId input) cs) as Hex
        by (apply list_elem_of_filter; done).
      destruct (filter (targets nodeId input) cs) as [|c1 [|c2 rest]];
        [by apply elem_of_nil in Hex| |simpl in Hlen; lia].
      apply list_elem_of_singleton in Hex. by subst. }
    apply elem_of_nil_inv. intros c [Hc1 Hc2]%list_elem_of_filter.
    apply list_elem_of_filter in Hc2 as [Hne Hc].
    assert (c ∈ filter (targets nodeId input) cs) as Hcin
      by (apply list_elem_of_filter; done).
    rewrite Hone in Hcin. apply list_elem_of_singleton in Hcin. by subst.
  - apply elem_of_nil_inv. intros c [Hc1 Hc2]%list_elem_of_filter.
    apply list_elem_of_In in Hc2.
    pose proof (find_none _ _ Hfind _ Hc2) as Hno.
    by apply bool_decide_eq_false in Hno.
Qed.

Lemma connect_removal_sublist (cs : list Connection) (nodeId input : string) :
  (match List.find (λ c, bool_decide (to_nodeId c = nodeId ∧ to_input c = input)) cs with
   | Some existing => filter (λ c, conn_id c ≠ conn_id existing) cs
   | None => cs
   end) `sublist_of` cs.
Proof. destruct (List.find _ cs); [apply sublist_filter|done]. Qed.

(** What a successful [connect] leaves: the input cleared of the connection
    that occupied it, and the new connection pushed. *)
Lemma connect_Return (f o t i : string) (s s' : State) (cid : string) :
  connect f o t i s = (Return cid, s') →
  cid = "conn-" +:+ pretty (S (connectionIdCounter s))
  ∧ nodes s' = nodes s
  ∧ store s' = store s
  ∧ connections s' =
      (match List.find (λ c, bool_decide (to_nodeId c = t ∧ to_input c = i))
                       (connections s) with
       | Some existing => filter (λ c, conn_id c ≠ conn_id existing) (connections s)
       | None => connections s
       end)
      ++ [{| conn_id := cid; from_nodeId := f; from_output := o;
             to_nodeId := t; to_input := i |}].
Proof.
  unfold connect.
  destruct (getNode f s) as [fromNode|]; [|done].
  destruct (getNode t s) as [toNode|]; [|done].
  case_decide; [done|]. case_decide; [done|].
  destruct (wouldCreateCycle _ _) as [[|]| |]; try done.
  intros [= <- <-].
  destruct (List.find _ (connections s)); done.
Qed.

(** C8: [addNode], [removeNode], [disconnect] and a successful [connect] keep
    at most one connection per input port; after a successful [connect] the
    connections that target the connected input are exactly the new one, the
    connection that occupied the input being removed. *)
Theorem builder_keeps_inputUnique (s : State)
    (Hinv : inputUnique (connections s)) :
  (∀ node s', addNode node s = (Return (), s') →
     inputUnique (connections s'))
  ∧ (∀ nodeId removed s', removeNode nodeId s = (removed, s') →
       inputUnique (connections s'))
  ∧ (∀ connectionId removed s', disconnect connectionId s = (removed, s') →
       inputUnique (connections s'))
  ∧ (∀ f o t i cid s', connect f o t i s = (Return cid, s') →
       inputUnique (connections s')
       ∧ filter (targets t i) (connections s')
         = [{| conn_id := cid; from_nodeId := f; from_output := o;
               to_nodeId := t; to_input := i |}]).
Proof.
  split; [|split; [|split]].
  - intros node s'. unfold addNode. destruct (hasNode _ s); [done|].
    by intros [= <-].
  - intros nodeId removed s'. unfold removeNode.
    destruct (hasNode nodeId s); intros [= <- <-]; [|done].
    simpl. eapply inputUnique_sublist; [apply sublist_filter|done].
  - intros connectionId removed s'. unfold disconnect.
    destruct (removeFirst connectionId (connections s)) as [cs|] eqn:Hrm;
      intros [= <- <-]; [|done].
    simpl. eapply inputUnique_sublist; [by eapply removeFirst_sublist|done].
  - intros f o t i cid s' Hcall.
    apply connect_Return in Hcall as (_ & _ & _ & ->). split; [|
      rewrite filter_app, connect_input_cleared by done;
      by rewrite filter_cons_True].
    intros nodeId input. rewrite filter_app, length_app.
    destruct (decide (targets nodeId input
                {| conn_id := cid; from_nodeId := f; from_output := o;
                   to_nodeId := t; to_input := i |})) as [[Ht Hi]|Hno].
    + simpl in Ht, Hi. subst nodeId input.
      rewrite connect_input_cleared by done.
      rewrite filter_cons_True by done. simpl. lia.
    + rewrite (filter_cons_False _ _ _ Hno). simpl. rewrite Nat.add_0_r.
      eapply inputUnique_sublist; [apply connect_removal_sublist|done].
Qed.

Lemma builder_keeps_inputUnique_witness :
  let occupied :=
    Fixtures.after (connect "source-1" "output" "effect-1" "input")
                   Fixtures.chainNodes in
  let reconnected :=
    Fixtures.after (connect "source-1" "output" "effect-1" "input") occupied in
  length (filter (targets "effect-1" "input") (connections occupied)) = 1
  ∧ inputUnique (connections
      (Fixtures.after (addNode (Fixtures.createSourceNode "source-2")) occupied))
  ∧ inputUnique (connections (Fixtures.after (removeNode "source-1") occupied))
  ∧ inputUnique (connections (Fixtures.after (disconnect "conn-1") occupied))
  ∧ inputUnique (connections reconnected)
  ∧ filter (targets "effect-1" "input") (connections reconnected)
    = [{| conn_id := "conn-2"; from_nodeId := "source-1"; from_output := "output";
          to_nodeId := "effect-1"; to_input := "input" |}].
Proof.
  intros occupied reconnected. split; [reflexivity|].
  assert (inputUnique (connections occupied)) as Hinv.
  { intros nodeId input. change (connections occupied) with
      [{| conn_id := "conn-1"; from_nodeId := "source-1"; from_output := "output";
          to_nodeId := "effect-1"; to_input := "input" |}].
    rewrite filter_cons. case_decide; simpl; lia. }
  destruct (builder_keeps_inputUnique occupied Hinv)
    as (Hadd & Hremove & Hdisconnect & Hconnect).
  split; [|split; [|split]].
  - apply (Hadd (Fixtures.createSourceNode "source-2")). reflexivity.
  - apply (Hremove "source-1" true). reflexivity.
  - apply (Hdisconnect "conn-1" true). reflexivity.
  - apply (Hconnect "source-1" "output" "effect-1" "input" "conn-2" reconnected).
    reflexivity.
Defined.

(** *** Parameter updates *)

Section update_params.

Variable node : ShaderNode.



Hypothesis params_distinct :
  ∀ k1 k2 l, params node !! k1 = Some l → params node !! k2 = Some l → k1 = k2.


End update_params.




(** *** Loops *)

(** An invariant over the elements already handled and the state. *)
Lemma forEach_Return_inv {A S : Type} (f : A → S → Outcome S)
    (Q : list A → S → Prop) (l : list A) (s s' : S) :
  Q [] s →
  (∀ handled x s1 s2,
     x ∈ l → Q handled s1 → f x s1 = Return s2 → Q (handled ++ [x]) s2) →
  forEach f l s = Return s' →
  Q l s'.
Proof.
  intros Hinit Hstep.
  assert (∀ rest handled s0,
            handled ++ rest = l → Q handled s0 →
            forEach f rest s0 = Return s' → Q l s') as Hgen.
  { induction rest as [|x rest IH]; intros handled s0 Hl Hq; simpl.
    - intros [= <-]. rewrite app_nil_r in Hl. by subst.
    - destruct (f x s0) as [s1| |] eqn:Hf; [|done..].
      apply (IH (handled ++ [x])).
      + by rewrite <- app_assoc.
      + apply (Hstep handled x s0 s1); [|done..].
        rewrite <- Hl. apply elem_of_app. right. apply elem_of_cons. by left. }
  by apply (Hgen l []).
Qed.

(** A loop whose every turn returns, returns. *)
Lemma forEach_returns {A S : Type} (f : A → S → Outcome S) (P : S → Prop)
    (l : list A) (s : S) :
  P s →
  (∀ x s1, x ∈ l → P s1 → ∃ s2, f x s1 = Return s2 ∧ P s2) →
  ∃ s', forEach f l s = Return s'.
Proof.
  revert s. induction l as [|x l IH]; intros s Hs Hstep; simpl; [by eauto|].
  destruct (Hstep x s) as (s2 & -> & Hs2); [apply elem_of_cons; by left|done|].
  apply IH; [done|]. intros y s1 Hy. apply Hstep. apply elem_of_cons. by right.
Qed.

Lemma forSome_false_inv {A S : Type} (f : A → S → Outcome (bool * S))
    (Q : list A → S → Prop) (l : list A) (s s' : S) :
  Q [] s →
  (∀ handled x s1 s2,
     x ∈ l → Q handled s1 → f x s1 = Return (false, s2) → Q (handled ++ [x]) s2) →
  forSome f l s = Return (false, s') →
  Q l s'.
Proof.
  intros Hinit Hstep.
  assert (∀ rest handled s0,
            handled ++ rest = l → Q handled s0 →
            forSome f rest s0 = Return (false, s') → Q l s') as Hgen.
  { induction rest as [|x rest IH]; intros handled s0 Hl Hq; simpl.
    - intros [= <-]. rewrite app_nil_r in Hl. by subst.
    - destruct (f x s0) as [[[|] s1]| |] eqn:Hf; [done| |done..].
      apply (IH (handled ++ [x])).
      + by rewrite <- app_assoc.
      + apply (Hstep handled x s0 s1); [|done..].
        rewrite <- Hl. apply elem_of_app. right. apply elem_of_cons. by left. }
  by apply (Hgen l []).
Qed.

Lemma forSome_returns {A S : Type} (f : A → S → Outcome (bool * S))
    (P : S → Prop) (l : list A) (s : S) :
  P s →
  (∀ x s1, x ∈ l → P s1 → ∃ found s2, f x s1 = Return (found, s2) ∧ P s2) →
  ∃ found s', forSome f l s = Return (found, s') ∧ P s'.
Proof.
  revert s. induction l as [|x l IH]; intros s Hs Hstep; simpl; [by eauto|].
  destruct (Hstep x s) as (found & s2 & -> & Hs2);
    [apply elem_of_cons; by left|done|].
  destruct found; [by eauto|].
  apply IH; [done|]. intros y s1 Hy. apply Hstep. apply elem_of_cons. by right.
Qed.

(** A loop whose turns stay within their budget stays within it. *)
Lemma forEach_in_budget {A S : Type} (f : A → S → Outcome S) (P : S → Prop)
    (l : list A) (s : S) :
  P s →
  (∀ x s1, x ∈ l → P s1 →
     f x s1 ≠ OutOfFuel ∧ ∀ s2, f x s1 = Return s2 → P s2) →
  forEach f l s ≠ OutOfFuel.
Proof.
  revert s. induction l as [|x l IH]; intros s Hs Hstep; simpl; [done|].
  destruct (Hstep x s) as [Hbudget Hnext]; [apply elem_of_cons; by left|done|].
  destruct (f x s) as [s2| |]; [|done..].
  apply IH; [by apply Hnext|].
  intros y s1 Hy. apply Hstep. apply elem_of_cons. by right.
Qed.

(** *** Topological sort *)

Lemma before_app_r {A : Type} (x y : A) (l ext : list A) :
  before x y l → before x y (l ++ ext).
Proof.
  intros (l1 & l2 & l3 & ->). exists l1, l2, (l3 ++ ext).
  rewrite <- app_assoc. simpl. do 2 f_equal. by rewrite <- app_assoc.
Qed.

Lemma before_snoc {A : Type} (x y : A) (l : list A) :
  x ∈ l → before x y (l ++ [y]).
Proof.
  intros (l1 & l2 & ->)%list_elem_of_split. exists l1, l2, [].
  by rewrite <- app_assoc.
Qed.

Lemma distinctIds_eq (ns : list ShaderNode) (m n : ShaderNode) :
  distinctIds ns → m ∈ ns → n ∈ ns → node_id m = node_id n → m = n.
Proof.
  unfold distinctIds. induction ns as [|k ns IH]; intros Hnd Hm Hn Heq.
  - by apply elem_of_nil in Hm.
  - rewrite fmap_cons in Hnd. apply NoDup_cons in Hnd as [Hk Hnd].
    apply elem_of_cons in Hm as [->|Hm]; apply elem_of_cons in Hn as [->|Hn].
    + done.
    + exfalso. apply Hk. rewrite Heq. apply list_elem_of_fmap. eauto.
    + exfalso. apply Hk. rewrite <- Heq. apply list_elem_of_fmap. eauto.
    + by apply IH.
Qed.

Section toposort.

Variable s : State.
Hypothesis ids_distinct : distinctIds (nodes s).

Lemma sortInv_initial :
  sortInv s {| result := []; visited := ∅; visiting := ∅ |}.
Proof.
  split; simpl.
  - intros m Hm. by apply elem_of_nil in Hm.
  - intros m _ Hm. set_solver.
  - apply NoDup_nil_2.
  - intros c m n _ _ _ Hn. by apply elem_of_nil in Hn.
  - set_solver.
Qed.

Lemma sortInv_enter (nodeId : string) (st : SortState) :
  sortInv s st → nodeId ∉ visited st →
  sortInv s {| result := result st; visited := visited st;
               visiting := {[nodeId]} ∪ visiting st |}.
Proof.
  intros [Hstored Hres Hnodup Hord Hdisj] Hx. split; simpl; try done. set_solver.
Qed.

(** Leaving a node: every producer of its inputs is visited, the node itself
    is still being visited. *)
Lemma sortInv_leave (nodeId : string) (st2 : SortState) :
  sortInv s st2 →
  nodeId ∈ visiting st2 →
  (∀ c, c ∈ getInputConnections nodeId s → from_nodeId c ∈ visited st2) →
  sortInv s {| result := match getNode nodeId s with
                         | Some node => result st2 ++ [node]
                         | None => result st2
                         end;
               visited := {[nodeId]} ∪ visited st2;
               visiting := visiting st2 ∖ {[nodeId]} |}.
Proof.
  intros [Hstored Hres Hnodup Hord Hdisj] Hin Hinputs.
  assert (nodeId ∉ visited st2) as Hfresh by set_solver.
  destruct (getNode nodeId s) as [node|] eqn:Hget.
  - apply getNode_Some in Hget as [Hnode Hid].
    assert (node ∉ result st2) as Hnew.
    { intros Hr. apply Hstored in Hr as [_ Hr]. by rewrite Hid in Hr. }
    split; simpl.
    + intros m [Hm| ->%list_elem_of_singleton]%elem_of_app.
      * apply Hstored in Hm as [? ?]. split; [done|set_solver].
      * split; [done|set_solver].
    + intros m Hm Hv. apply elem_of_app.
      destruct (decide (node_id m = nodeId)) as [Heq|Hne].
      * right. apply list_elem_of_singleton.
        apply (distinctIds_eq (nodes s)); [done..|congruence].
      * left. apply Hres; [done|set_solver].
    + apply NoDup_app. split; [done|]. split; [|apply NoDup_singleton].
      intros m Hm ->%list_elem_of_singleton. done.
    + intros c m n Hc Hm Hmid [Hn| ->%list_elem_of_singleton]%elem_of_app Hnid.
      * apply before_app_r. by apply (Hord c).
      * apply before_snoc. apply Hres; [done|]. rewrite Hmid.
        apply Hinputs. apply list_elem_of_filter. split; [congruence|done].
    + set_solver.
  - apply getNode_None in Hget.
    split; simpl.
    + intros m Hm. apply Hstored in Hm as [? ?]. split; [done|set_solver].
    + intros m Hm Hv. apply Hres; [done|].
      assert (node_id m ≠ nodeId); [|set_solver].
      intros <-. apply Hget. apply list_elem_of_fmap. eauto.
    + done.
    + done.
    + set_solver.
Qed.

(** Partial correctness of [visit]: whatever the budget, a returning call
    keeps the invariant, marks its node visited and restores [visiting]. *)
Lemma visit_sound (fuel : nat) :
  ∀ nodeId st st',
    sortInv s st → visit fuel s nodeId st = Return st' →
    visitPost s nodeId st st'.
Proof.
  induction fuel as [|fuel IH]; intros nodeId st st' Hinv; simpl; [done|].
  case_decide as Hvisited.
  { intros [= <-]. unfold visitPost. split; [done|]. split; [set_solver|]. by split. }
  case_decide as Hvisiting; [done|].
  destruct (forEach _ _ _) as [st2| |] eqn:Hloop; [|done..].
  intros [= <-].
  apply (forEach_Return_inv _
           (λ handled st2,
              visiting st2 = {[nodeId]} ∪ visiting st
              ∧ visited st ⊆ visited st2
              ∧ (∀ c, c ∈ handled → from_nodeId c ∈ visited st2)
              ∧ sortInv s st2)) in Hloop.
  - destruct Hloop as (Hvis & Hsub & Hdone & Hinv2).
    split; [|split; [|split]]; simpl.
    + rewrite Hvis. set_solver.
    + set_solver.
    + set_solver.
    + apply sortInv_leave; [done|set_solver|done].
  - simpl. split; [done|]. split; [done|]. split.
    + intros c Hc. by apply elem_of_nil in Hc.
    + by apply sortInv_enter.
  - intros handled c s1 s2 _ (Hvis & Hsub & Hdone & Hinv1) Hcall.
    apply IH in Hcall as (Hvis2 & Hsub2 & Hc & Hinv2); [|done].
    split; [congruence|]. split; [set_solver|]. split; [|done].
    intros c' [Hc'| ->%list_elem_of_singleton]%elem_of_app; [|done].
    apply Hsub2. by apply Hdone.
Qed.

Lemma from_in_sortUniverse (c : Connection) :
  c ∈ connections s → from_nodeId c ∈ sortUniverse s.
Proof.
  intros Hc. unfold sortUniverse. apply elem_of_union. right.
  apply elem_of_list_to_set, list_elem_of_fmap. eauto.
Qed.

Lemma key_in_sortUniverse (nodeId : string) :
  nodeId ∈ nodeKeys s → nodeId ∈ sortUniverse s.
Proof.
  intros Hk. unfold sortUniverse. apply elem_of_union. left.
  by apply elem_of_list_to_set.
Qed.

Lemma visit_keeps_visiting (fuel : nat) :
  ∀ nodeId st st',
    visit fuel s nodeId st = Return st' → visiting st' = visiting st.
Proof.
  induction fuel as [|fuel IH]; intros nodeId st st'; simpl; [done|].
  case_decide as Hvisited; [by intros [= <-]|].
  case_decide as Hvisiting; [done|].
  destruct (forEach _ _ _) as [st2| |] eqn:Hloop; [|done..].
  intros [= <-]. simpl.
  apply (forEach_Return_inv _
           (λ _ st2, visiting st2 = {[nodeId]} ∪ visiting st)) in Hloop.
  - rewrite Hloop. set_solver.
  - done.
  - intros _ c s1 s2 _ Hvis Hcall. apply IH in Hcall. congruence.
Qed.

(** The budget [getTopologicallySorted] gives [visit] is never used up,
    whatever the connections: a call returns or throws. *)
Lemma visit_in_budget (fuel : nat) :
  ∀ nodeId st,
    nodeId ∈ sortUniverse s →
    visiting st ⊆ sortUniverse s →
    size (sortUniverse s) < size (visiting st) + fuel →
    visit fuel s nodeId st ≠ OutOfFuel.
Proof.
  induction fuel as [|fuel IH]; intros nodeId st Hin Hsub Hfuel.
  { apply subseteq_size in Hsub. lia. }
  simpl. case_decide as Hvisited; [done|].
  case_decide as Hvisiting; [done|].
  destruct (forEach _ _ _) as [st2| |] eqn:Hloop; [done..|].
  exfalso. revert Hloop.
  apply (forEach_in_budget _ (λ st2, visiting st2 = {[nodeId]} ∪ visiting st));
    [done|].
  intros c s1 [_ Hc]%list_elem_of_filter Hvis1. split.
  - apply IH.
    + by apply from_in_sortUniverse.
    + rewrite Hvis1. set_solver.
    + rewrite Hvis1, size_union, size_singleton by set_solver. lia.
  - intros s2 Hcall. apply visit_keeps_visiting in Hcall. congruence.
Qed.

Lemma getTopologicallySorted_in_budget :
  getTopologicallySorted s ≠ OutOfFuel.
Proof.
  unfold getTopologicallySorted.
  destruct (forEach _ _ _) as [st| |] eqn:Hloop; [done..|].
  exfalso. revert Hloop.
  apply (forEach_in_budget _ (λ st, visiting st = ∅)); [done|].
  intros k s1 Hk Hvis1. split.
  - apply visit_in_budget.
    + by apply key_in_sortUniverse.
    + rewrite Hvis1. set_solver.
    + rewrite Hvis1, size_empty. lia.
  - intros s2 Hcall. apply visit_keeps_visiting in Hcall. congruence.
Qed.

Hypothesis conns_acyclic : acyclic (connections s).

(** Total correctness of [visit] on an acyclic connection list: every id in
    [visiting] is downstream of the node visited, so the node is not among
    them, and each nested call has one more id in [visiting], so the budget
    lasts. *)
Lemma visit_returns (fuel : nat) :
  ∀ nodeId st,
    sortInv s st →
    nodeId ∈ sortUniverse s →
    visiting st ⊆ sortUniverse s →
    size (sortUniverse s) < size (visiting st) + fuel →
    (∀ v, v ∈ visiting st → tc (edge (connections s)) nodeId v) →
    ∃ st', visit fuel s nodeId st = Return st'.
Proof.
  induction fuel as [|fuel IH]; intros nodeId st Hinv Hin Hsub Hfuel Hpath.
  { apply subseteq_size in Hsub. lia. }
  simpl. case_decide as Hvisited; [by eauto|].
  case_decide as Hvisiting.
  { exfalso. apply (conns_acyclic nodeId). by apply Hpath. }
  set (st1 := {| result := result st; visited := visited st;
                 visiting := {[nodeId]} ∪ visiting st |}).
  destruct (forEach_returns (λ conn, visit fuel s (from_nodeId conn))
              (λ st2, sortInv s st2 ∧ visiting st2 = {[nodeId]} ∪ visiting st)
              (getInputConnections nodeId s) st1) as [st2 ->]; [| |by eauto].
  - split; [by apply sortInv_enter|done].
  - intros c s1 [Hto Hc]%list_elem_of_filter [Hinv1 Hvis1].
    destruct (IH (from_nodeId c) s1) as [s2 Hcall]; [done| | | | |].
    + by apply from_in_sortUniverse.
    + rewrite Hvis1. set_solver.
    + rewrite Hvis1, size_union, size_singleton by set_solver. lia.
    + intros v. rewrite Hvis1.
      assert (edge (connections s) (from_nodeId c) nodeId) as Hedge
        by (exists c; done).
      intros [->%elem_of_singleton|Hv]%elem_of_union.
      * by apply tc_once.
      * eapply tc_l; [done|]. by apply Hpath.
    + exists s2. split; [done|].
      apply visit_sound in Hcall as (Hvis2 & _ & _ & Hinv2); [|done].
      split; [done|congruence].
Qed.

(** The sort of an acyclic graph returns the stored nodes, once each, every
    stored producer before its consumer. *)
Lemma getTopologicallySorted_acyclic :
  ∃ sorted,
    getTopologicallySorted s = Return sorted
    ∧ sorted ≡ₚ nodes s
    ∧ ∀ c m n, c ∈ connections s → m ∈ nodes s → n ∈ nodes s →
               node_id m = from_nodeId c → node_id n = to_nodeId c →
               before m n sorted.
Proof.
  unfold getTopologicallySorted.
  set (st0 := {| result := []; visited := ∅; visiting := ∅ |}).
  set (fuel := S (size (sortUniverse s))).
  destruct (forEach_returns (visit fuel s)
              (λ st, sortInv s st ∧ visiting st = ∅) (nodeKeys s) st0)
    as [st Hrun].
  - split; [apply sortInv_initial|done].
  - intros k s1 Hk [Hinv1 Hvis1].
    destruct (visit_returns fuel k s1) as [s2 Hcall]; [done| | | | |].
    + by apply key_in_sortUniverse.
    + rewrite Hvis1. set_solver.
    + rewrite Hvis1, size_empty. unfold fuel. lia.
    + intros v. rewrite Hvis1. set_solver.
    + exists s2. split; [done|].
      apply visit_sound in Hcall as (Hvis2 & _ & _ & Hinv2); [|done].
      split; [done|congruence].
  - rewrite Hrun. exists (result st). split; [done|].
    apply (forEach_Return_inv _
             (λ handled st, sortInv s st ∧ ∀ k, k ∈ handled → k ∈ visited st))
      in Hrun.
    + destruct Hrun as [[Hstored Hres Hnodup Hord Hdisj] Hall].
      assert (∀ m, m ∈ nodes s → m ∈ result st) as Hevery.
      { intros m Hm. apply Hres; [done|]. apply Hall.
        apply list_elem_of_fmap. eauto. }
      split.
      * apply NoDup_Permutation; [done|by eapply NoDup_fmap_1|].
        intros m. split; [apply Hstored|apply Hevery].
      * intros c m n Hc Hm Hn Hmid Hnid. apply (Hord c); auto.
    + split; [apply sortInv_initial|]. intros k Hk. by apply elem_of_nil in Hk.
    + intros handled k s1 s2 _ [Hinv1 Hdone] Hcall.
      apply visit_sound in Hcall as (_ & Hsub & Hk & Hinv2); [|done].
      split; [done|].
      intros k' [Hk'| ->%list_elem_of_singleton]%elem_of_app; [|done].
      apply Hsub. by apply Hdone.
Qed.

End toposort.

(** A connection list whose every connection goes up a rank has no cycle. *)
Lemma acyclic_ranked (cs : list Connection) (rank : string → nat) :
  Forall (λ c, rank (from_nodeId c) < rank (to_nodeId c)) cs → acyclic cs.
Proof.
  intros Hrank.
  assert (∀ x y, tc (edge cs) x y → rank x < rank y) as Hup.
  { assert (∀ x y, edge cs x y → rank x < rank y) as Hstep.
    { intros x y (c & Hc & <- & <-). by apply (proj1 (Forall_forall _ _) Hrank). }
    induction 1 as [x y Hxy|x y z Hxy _ IH].
    - by apply Hstep.
    - apply Hstep in Hxy. lia. }
  intros x Hx. apply Hup in Hx. lia.
Qed.

(** C1: on a graph state whose connection list is acyclic,
    [getTopologicallySorted] returns a list that holds every stored node
    exactly once, and for every connection between two stored nodes the
    node it comes from stands strictly before the node it goes to. *)
Theorem getTopologicallySorted_sorts (s : State)
    (Hids : distinctIds (nodes s))
    (Hacyclic : acyclic (connections s)) :
  ∃ sorted,
    getTopologicallySorted s = Return sorted
    ∧ sorted ≡ₚ nodes s
    ∧ NoDup sorted
    ∧ ∀ c fromNode toNode,
        c ∈ connections s →
        getNode (from_nodeId c) s = Some fromNode →
        getNode (to_nodeId c) s = Some toNode →
        before fromNode toNode sorted.
Proof.
  destruct (getTopologicallySorted_acyclic s Hids Hacyclic)
    as (sorted & Hrun & Hperm & Horder).
  exists sorted. split; [done|]. split; [done|]. split.
  - rewrite Hperm. by eapply NoDup_fmap_1.
  - intros c fromNode toNode Hc [Hm Hmid]%getNode_Some [Hn Hnid]%getNode_Some.
    by apply (Horder c).
Qed.

Lemma getTopologicallySorted_sorts_witness :
  ∃ sorted,
    getTopologicallySorted Fixtures.chainGraph = Return sorted
    ∧ sorted ≡ₚ nodes Fixtures.chainGraph
    ∧ NoDup sorted
    ∧ before (Fixtures.createSourceNode "source-1")
             (Fixtures.createEffectNode "effect-1" "Brightness" 0) sorted.
Proof.
  destruct (getTopologicallySorted_sorts Fixtures.chainGraph)
    as (sorted & Hrun & Hperm & Hnodup & Horder).
  - unfold distinctIds. apply (bool_decide_unpack _). vm_compute. reflexivity.
  - apply (acyclic_ranked _ Fixtures.chainRank).
    apply (bool_decide_unpack _). vm_compute. reflexivity.
  - exists sorted. split; [exact Hrun|]. split; [exact Hperm|].
    split; [exact Hnodup|].
    apply (Horder {| conn_id := "conn-1"; from_nodeId := "source-1";
                     from_output := "output"; to_nodeId := "effect-1";
                     to_input := "input" |}); [|reflexivity..].
    apply (bool_decide_unpack _). vm_compute. reflexivity.
Defined.

(** *** Loading a serialized graph *)

Lemma fromJSON_addNodes (ns : list ShaderNode) :
  ∀ b, NoDup (node_id <$> (nodes b ++ ns)) →
    forEach (λ node b, match addNode node b with
                       | (Return _, b') => Return b'
                       | (Throw e, _) => Throw e
                       | (OutOfFuel, _) => OutOfFuel
                       end) ns b
    = Return (set_nodes (nodes b ++ ns) b).
Proof.
  induction ns as [|n ns IH]; intros b Hnd; simpl.
  - rewrite app_nil_r. by destruct b.
  - unfold addNode, hasNode. rewrite bool_decide_eq_false_2.
    + rewrite IH; simpl; [|by rewrite <- app_assoc].
      by rewrite <- app_assoc.
    + rewrite fmap_app, fmap_cons in Hnd.
      apply NoDup_app in Hnd as (_ & Hnd & _). intros Hin.
      apply (Hnd _ Hin). apply elem_of_cons. by left.
Qed.

Lemma fromJSON_pushConnections (cs : list Connection) :
  ∀ b, foldl (λ b conn, set_connections (connections b ++ [conn]) b) b cs
       = set_connections (connections b ++ cs) b.
Proof.
  induction cs as [|c cs IH]; intros b; simpl.
  - rewrite app_nil_r. by destruct b.
  - rewrite IH. simpl. by rewrite <- app_assoc.
Qed.

Lemma fromJSON_Return (data : SerializedGraph) (counter : nat)
    (h : gmap nat ParamDef) :
  NoDup (node_id <$> data_nodes data) →
  fromJSON data counter h
  = Return {| nodes := data_nodes data; connections := data_connections data;
              graphId := data_id data; connectionIdCounter := counter;
              store := h |}.
Proof.
  intros Hnd. unfold fromJSON.
  rewrite fromJSON_addNodes by done.
  by rewrite fromJSON_pushConnections.
Qed.

(** C7, as the code does it: [fromJSON] checks the node ids only.  A
    serialized graph with distinct node ids loads without error whatever its
    connections name; the builder holds the serialized connection list as it
    is, dangling connections kept; and the sort of the loaded graph, when the
    connection list is acyclic, returns the stored nodes without error. *)
Theorem fromJSON_keeps_connections (data : SerializedGraph) (counter : nat)
    (h : gmap nat ParamDef)
    (Hids : NoDup (node_id <$> data_nodes data)) :
  ∃ s, fromJSON data counter h = Return s
    ∧ nodes s = data_nodes data
    ∧ connections s = data_connections data
    ∧ (acyclic (data_connections data) →
       ∃ sorted, getTopologicallySorted s = Return sorted
                 ∧ sorted ≡ₚ data_nodes data).
Proof.
  eexists. split; [by apply fromJSON_Return|]. simpl.
  split; [done|]. split; [done|]. intros Hacyclic.
  destruct (getTopologicallySorted_acyclic
              {| nodes := data_nodes data; connections := data_connections data;
                 graphId := data_id data; connectionIdCounter := counter;
                 store := h |}) as (sorted & Hrun & Hperm & _); [done..|].
  by exists sorted.
Qed.

Lemma fromJSON_keeps_connections_witness :
  ∃ s, fromJSON Fixtures.danglingData 0 ∅ = Return s
    ∧ nodes s = data_nodes Fixtures.danglingData
    ∧ connections s = data_connections Fixtures.danglingData
    ∧ ∃ sorted, getTopologicallySorted s = Return sorted
                ∧ sorted ≡ₚ data_nodes Fixtures.danglingData.
Proof.
  destruct (fromJSON_keeps_connections Fixtures.danglingData 0 ∅)
    as (s & Hload & Hnodes & Hconns & Hsort).
  - apply (bool_decide_unpack _). vm_compute. reflexivity.
  - exists s. split; [exact Hload|]. split; [exact Hnodes|].
    split; [exact Hconns|]. apply Hsort.
    apply (acyclic_ranked _ (λ nodeId, if decide (nodeId = "ghost") then 0 else 1)).
    apply (bool_decide_unpack _). vm_compute. reflexivity.
Defined.

(** C7, as it is worded, fails: a serialized graph with a connection from a
    node that is not in its node list loads, the connection is kept, and the
    sort of the loaded graph returns; no error reaches the caller. *)
Lemma fromJSON_dangling_counterexample :
  Exists (dangling (data_nodes Fixtures.danglingData))
         (data_connections Fixtures.danglingData)
  ∧ ∃ s, fromJSON Fixtures.danglingData 0 ∅ = Return s
      ∧ connections s = data_connections Fixtures.danglingData
      ∧ getTopologicallySorted s = Return (data_nodes Fixtures.danglingData).
Proof.
  split.
  - apply Exists_cons_hd. left. simpl. set_solver.
  - eexists. split; [reflexivity|]. split; reflexivity.
Qed.

(** *** The cycle check of [connect] *)

Section can_reach.

Variable conns : list Connection.
Variable target : string.

(** A call that answers [false] has marked its start, and whatever it marked
    has all its successors marked, none of them the target. *)
Lemma canReach_false (fuel : nat) :
  ∀ start seen seen',
    canReach fuel conns target start seen = Return (false, seen') →
    start ≠ target
    ∧ seen ⊆ seen'
    ∧ start ∈ seen'
    ∧ ∀ x y, x ∈ seen' → x ∉ seen → edge conns x y → y ∈ seen' ∧ y ≠ target.
Proof.
  induction fuel as [|fuel IH]; intros start seen seen'; simpl; [done|].
  case_decide as Htarget; [done|].
  case_decide as Hseen.
  { intros [= <-]. split; [done|]. split; [done|]. split; [done|].
    intros x y Hx Hnx. done. }
  intros Hloop.
  apply (forSome_false_inv _
           (λ handled cur,
              {[start]} ∪ seen ⊆ cur
              ∧ (∀ c, c ∈ handled → to_nodeId c ∈ cur ∧ to_nodeId c ≠ target)
              ∧ ∀ x y, x ∈ cur → x ∉ {[start]} ∪ seen → edge conns x y →
                       y ∈ cur ∧ y ≠ target)) in Hloop.
  - destruct Hloop as (Hsub & Hout & Hclosed).
    split; [done|]. split; [set_solver|]. split; [set_solver|].
    intros x y Hx Hnx Hxy. destruct (decide (x = start)) as [->|Hne].
    + destruct Hxy as (c & Hc & Hfrom & <-).
      apply Hout. by apply list_elem_of_filter.
    + apply (Hclosed x); [done|set_solver|done].
  - split; [done|]. split.
    + intros c Hc. by apply elem_of_nil in Hc.
    + intros x y Hx Hnx. done.
  - intros handled c cur cur' _ (Hsub & Hout & Hclosed) Hcall.
    apply IH in Hcall as (Hne & Hsub' & Hin & Hclosed').
    split; [set_solver|]. split.
    + intros c' [Hc'| ->%list_elem_of_singleton]%elem_of_app; [|done].
      destruct (Hout c' Hc') as [? ?]. split; [set_solver|done].
    + intros x y Hx Hnx Hxy. destruct (decide (x ∈ cur)) as [Hcur|Hcur].
      * destruct (Hclosed x y Hcur Hnx Hxy) as [? ?]. split; [set_solver|done].
      * by apply (Hclosed' x).
Qed.

(** With a budget above the number of ids not yet marked, a call returns. *)
Lemma canReach_returns (universe : gset string) (fuel : nat) :
  (∀ c, c ∈ conns → to_nodeId c ∈ universe) →
  ∀ start seen,
    start ∈ universe → seen ⊆ universe →
    size universe < size seen + fuel →
    ∃ found seen',
      canReach fuel conns target start seen = Return (found, seen')
      ∧ seen ⊆ seen' ∧ seen' ⊆ universe.
Proof.
  intros Huniv. induction fuel as [|fuel IH]; intros start seen Hstart Hsub Hfuel.
  { apply subseteq_size in Hsub. lia. }
  simpl. case_decide as Htarget; [by eauto|].
  case_decide as Hseen; [by eauto|].
  destruct (forSome_returns
              (λ conn, canReach fuel conns target (to_nodeId conn))
              (λ cur, {[start]} ∪ seen ⊆ cur ∧ cur ⊆ universe)
              (filter (λ c, from_nodeId c = start) conns) ({[start]} ∪ seen))
    as (found & seen' & -> & Hlow & Hhigh).
  - split; [done|set_solver].
  - intros c cur [_ Hc]%list_elem_of_filter [Hlow Hhigh].
    destruct (IH (to_nodeId c) cur) as (found & cur' & Hcall & Hsub' & Hhigh');
      [by apply Huniv|done| |].
    + assert (size ({[start]} ∪ seen) ≤ size cur) as Hsize
        by by apply subseteq_size.
      rewrite size_union, size_singleton in Hsize by set_solver. lia.
    + exists found, cur'. split; [done|]. split; [set_solver|done].
  - exists found, seen'. split; [done|]. split; [set_solver|done].
Qed.

End can_reach.

(** [wouldCreateCycle] returns, and answers [true] when the target of the new
    connection reaches its source over the connections of the builder. *)
Lemma wouldCreateCycle_reachable (newConnection : Connection) (s : State) :
  rtc (edge (connections s)) (to_nodeId newConnection) (from_nodeId newConnection) →
  wouldCreateCycle newConnection s = Return true.
Proof.
  intros Hreach. unfold wouldCreateCycle.
  set (start := to_nodeId newConnection).
  set (universe := reachUniverse start (connections s)).
  destruct (canReach_returns (connections s) (from_nodeId newConnection)
              universe (S (size universe))) with (start := start) (seen := (∅ : gset string))
    as (found & seen' & Hrun & _ & _).
  - intros c Hc. unfold universe, reachUniverse. apply elem_of_union. right.
    apply elem_of_list_to_set, list_elem_of_fmap. eauto.
  - unfold universe, reachUniverse. set_solver.
  - set_solver.
  - rewrite size_empty. lia.
  - rewrite Hrun. destruct found; [done|]. exfalso.
    apply canReach_false in Hrun as (Hne & _ & Hstart & Hclosed).
    assert (∀ y, rtc (edge (connections s)) start y → y ∈ seen' ∧ y ≠ from_nodeId newConnection)
      as Hall.
    { apply rtc_ind_r; [done|]. intros y z _ Hyz [Hy _].
      apply (Hclosed y); [done|set_solver|done]. }
    by destruct (Hall _ Hreach).
Qed.

(** The budget [wouldCreateCycle] gives [canReach] is never used up. *)
Lemma wouldCreateCycle_returns (newConnection : Connection) (s : State) :
  ∃ answer, wouldCreateCycle newConnection s = Return answer.
Proof.
  unfold wouldCreateCycle.
  set (start := to_nodeId newConnection).
  set (universe := reachUniverse start (connections s)).
  destruct (canReach_returns (connections s) (from_nodeId newConnection)
              universe (S (size universe))) with (start := start) (seen := (∅ : gset string))
    as (found & seen' & -> & _ & _); [| | | |by eauto].
  - intros c Hc. unfold universe, reachUniverse. apply elem_of_union. right.
    apply elem_of_list_to_set, list_elem_of_fmap. eauto.
  - unfold universe, reachUniverse. set_solver.
  - set_solver.
  - rewrite size_empty. lia.
Qed.

Lemma connect_in_budget (f o t i : string) (s : State) :
  (connect f o t i s).1 ≠ OutOfFuel.
Proof.
  unfold connect.
  destruct (getNode f s); [|done]. destruct (getNode t s); [|done].
  case_decide; [done|]. case_decide; [done|].
  match goal with
  | |- context [wouldCreateCycle ?c ?s2] =>
      destruct (wouldCreateCycle_returns c s2) as [[|] ->]
  end; done.
Qed.

(** A path from [t] can be taken not to come back into [t]: it survives the
    removal of connections into [t]. *)
Lemma reach_without_entering (cs cs' : list Connection) (t f : string) :
  (∀ c, c ∈ cs → to_nodeId c ≠ t → c ∈ cs') →
  rtc (edge cs) t f → rtc (edge cs') t f.
Proof.
  intros Hkeep Hreach.
  assert (∀ x, rtc (edge cs) x f → rtc (edge cs') x f ∨ rtc (edge cs') t f) as Hgen.
  { apply rtc_ind_l; [by left|]. intros x y Hxy _ IH.
    destruct (decide (y = t)) as [->|Hne]; [right; by destruct IH|].
    destruct IH as [IH|IH]; [left|by right].
    eapply rtc_l; [|done].
    destruct Hxy as (c & Hc & Hfrom & Hto). exists c.
    split; [|done]. apply Hkeep; [done|congruence]. }
  by destruct (Hgen t Hreach).
Qed.

(** With existing endpoints and distinct connection ids, a connection whose
    target already reaches its source is refused with the cycle error.  The
    builder it leaves has lost the connection that occupied the input. *)
Lemma connect_rejects_cycle (f o t i : string) (s : State)
    (fromNode toNode : ShaderNode) :
  getNode f s = Some fromNode → getNode t s = Some toNode →
  is_Some (outputs fromNode !! o) → is_Some (inputs toNode !! i) →
  NoDup (conn_id <$> connections s) →
  rtc (edge (connections s)) t f →
  ∃ s', connect f o t i s = (Throw WouldCreateCycle, s')
    ∧ connections s' =
        match List.find (λ c, bool_decide (to_nodeId c = t ∧ to_input c = i))
                        (connections s) with
        | Some existing => filter (λ c, conn_id c ≠ conn_id existing) (connections s)
        | None => connections s
        end.
Proof.
  intros Hfrom Hto Hout Hin Hids Hreach. unfold connect. rewrite Hfrom, Hto.
  rewrite decide_False by (intros Hnone; rewrite Hnone in Hout; by destruct Hout).
  rewrite decide_False by (intros Hnone; rewrite Hnone in Hin; by destruct Hin).
  rewrite wouldCreateCycle_reachable.
  - eexists. split; [done|]. simpl. by destruct (List.find _ (connections s)).
  - simpl. eapply reach_without_entering; [|done].
    intros c Hc Hne.
    destruct (List.find _ (connections s)) as [existing|] eqn:Hfind; [|done].
    simpl. apply list_elem_of_filter. split; [|done].
    apply find_some in Hfind as [Hex Hte]. apply bool_decide_eq_true in Hte.
    apply list_elem_of_In in Hex. intros Hid.
    assert (c = existing) as ->; [|by destruct Hte].
    clear -Hids Hc Hex Hid. induction (connections s) as [|k cs IH].
    + by apply elem_of_nil in Hc.
    + rewrite fmap_cons in Hids. apply NoDup_cons in Hids as [Hk Hids].
      apply elem_of_cons in Hc as [->|Hc]; apply elem_of_cons in Hex as [->|Hex].
      * done.
      * exfalso. apply Hk. rewrite Hid. apply list_elem_of_fmap. eauto.
      * exfalso. apply Hk. rewrite <- Hid. apply list_elem_of_fmap. eauto.
      * by apply IH.
Qed.

(** *** The builder keeps the graph well formed *)

Lemma addNode_distinctIds (node : ShaderNode) (s s' : State) :
  addNode node s = (Return (), s') →
  distinctIds (nodes s) → distinctIds (nodes s').
Proof.
  unfold addNode, hasNode, distinctIds. case_bool_decide as Hnew; [done|].
  intros [= <-] Hnd. simpl. rewrite fmap_app. simpl.
  apply NoDup_app. split; [done|]. split; [|apply NoDup_singleton].
  intros k Hk ->%list_elem_of_singleton. done.
Qed.

Lemma removeNode_distinctIds (nodeId : string) (s : State) :
  distinctIds (nodes s) → distinctIds (nodes (removeNode nodeId s).2).
Proof.
  unfold removeNode, distinctIds. destruct (hasNode nodeId s); [|done].
  simpl. intros Hnd. eapply sublist_NoDup; [exact Hnd|].
  apply fmap_sublist, sublist_filter.
Qed.

Lemma edge_mono (cs cs' : list Connection) (x y : string) :
  (∀ c, c ∈ cs → c ∈ cs') → edge cs x y → edge cs' x y.
Proof. intros Hsub (c & Hc & Hxy). exists c. split; [by apply Hsub|done]. Qed.

Lemma acyclic_mono (cs cs' : list Connection) :
  (∀ c, c ∈ cs → c ∈ cs') → acyclic cs' → acyclic cs.
Proof.
  intros Hsub Hacyclic.
  assert (∀ x y, tc (edge cs) x y → tc (edge cs') x y) as Hpath.
  { induction 1 as [x y Hxy|x y z Hxy _ IH].
    - apply tc_once. by apply (edge_mono cs cs').
    - eapply tc_l; [|done]. by apply (edge_mono cs cs'). }
  intros x Hx. by apply (Hacyclic x), Hpath.
Qed.

(** A path through the connections and one more connection [f → t] either
    avoids the new connection or goes to [f] and leaves from [t]; it takes the
    new connection once when [t] does not reach [f]. *)
Lemma path_with_new_connection (cs : list Connection) (new : Connection)
    (x y : string) :
  ¬ rtc (edge cs) (to_nodeId new) (from_nodeId new) →
  tc (edge (cs ++ [new])) x y →
  tc (edge cs) x y
  ∨ (rtc (edge cs) x (from_nodeId new) ∧ rtc (edge cs) (to_nodeId new) y).
Proof.
  intros Hno.
  assert (∀ x y, edge (cs ++ [new]) x y →
            edge cs x y ∨ (x = from_nodeId new ∧ y = to_nodeId new)) as Hstep.
  { intros x' y' (c & [Hc| ->%list_elem_of_singleton]%elem_of_app & <- & <-).
    - left. by exists c.
    - by right. }
  induction 1 as [x y Hxy|x y z Hxy _ IH].
  - destruct (Hstep x y Hxy) as [Hold|[-> ->]]; [left; by apply tc_once|by right].
  - destruct (Hstep x y Hxy) as [Hold|[-> ->]]; destruct IH as [IH|[IHf IHt]].
    + left. by eapply tc_l.
    + right. split; [by eapply rtc_l|done].
    + right. split; [done|]. by apply tc_rtc.
    + exfalso. by apply Hno.
Qed.

(** A returning [connect] found no path from the target to the source. *)
Lemma connect_Return_unreachable (f o t i : string) (s s' : State) (cid : string) :
  connect f o t i s = (Return cid, s') →
  ∃ kept, connections s' = kept ++ [{| conn_id := cid; from_nodeId := f;
                                       from_output := o; to_nodeId := t;
                                       to_input := i |}]
          ∧ (∀ c, c ∈ kept → c ∈ connections s)
          ∧ ¬ rtc (edge kept) t f.
Proof.
  unfold connect.
  destruct (getNode f s) as [fromNode|]; [|done].
  destruct (getNode t s) as [toNode|]; [|done].
  case_decide; [done|]. case_decide; [done|].
  destruct (wouldCreateCycle _ _) as [[|]| |] eqn:Hcheck; try done.
  intros [= <- <-]. eexists. split; [reflexivity|]. split.
  - intros c. destruct (List.find _ (connections s)); [|done].
    simpl. by intros [_ ?]%list_elem_of_filter.
  - intros Hreach. rewrite wouldCreateCycle_reachable in Hcheck; [done|].
    exact Hreach.
Qed.

(** The cycle check does its work: a returning [connect] keeps the
    connection list acyclic. *)
Lemma connect_keeps_acyclic (f o t i : string) (s s' : State) (cid : string) :
  connect f o t i s = (Return cid, s') →
  acyclic (connections s) → acyclic (connections s').
Proof.
  intros (kept & -> & Hkept & Hno)%connect_Return_unreachable Hacyclic x Hx.
  apply path_with_new_connection in Hx as [Hx|[Hf Ht]]; [| |exact Hno].
  - by apply (acyclic_mono kept (connections s) Hkept Hacyclic x).
  - apply Hno. simpl in Hf, Ht. by etrans.
Qed.

(** C2 at a failing input: in the chain source-1 → effect-1 → effect-2 →
    output-1, [connect] from effect-2 to the input of effect-1 is refused with
    the cycle error, as specified, but the connection conn-1 that
    occupied the input is gone from the builder afterwards. *)
Theorem connect_cycle_drops_occupant :
  let s := Fixtures.chainGraph in
  let call := connect "effect-2" "output" "effect-1" "input" s in
  rtc (edge (connections s)) "effect-1" "effect-2"
  ∧ conn_id <$> connections s = ["conn-1"; "conn-2"; "conn-3"]
  ∧ call.1 = Throw WouldCreateCycle
  ∧ conn_id <$> connections call.2 = ["conn-2"; "conn-3"]
  ∧ connections call.2 ≠ connections s.
Proof.
  cbv zeta. split; [|split; [|split; [|split]]]; try reflexivity.
  - apply rtc_once.
    exists {| conn_id := "conn-2"; from_nodeId := "effect-1"; from_output := "output";
              to_nodeId := "effect-2"; to_input := "input" |}.
    split; [|done]. apply (bool_decide_unpack _). vm_compute. reflexivity.
  - vm_compute. discriminate.
Qed.

End GraphFacts.

(** ** Graph compiler *)

Module CompilerFacts.

Import Graph GraphProps Merger Compiler.

Lemma intermediateTexture_inj : Inj (=) (=) intermediateTexture.
Proof.
  intros i j Heq. unfold intermediateTexture in Heq.
  apply (inj (String.app "temp-")) in Heq. apply (inj pretty) in Heq. lia.
Qed.

Lemma intermediateTexture_not_screen (index : nat) :
  intermediateTexture index ≠ screen.
Proof. unfold intermediateTexture, screen. simpl. discriminate. Qed.

Section compile.

Variable isStructural : ShaderNode → bool.

(** The pass a node that is not structural adds to the walk. *)
Lemma compileNode_output (s : State) (total : nat) (w : Walk) (node : ShaderNode) :
  isStructural node = false →
  passes (compileNode isStructural s total w node)
  = passes w
    ++ [{| pass_id := passId (length (passes w));
           pass_nodes := [node_id node];
           pass_shader := match shader node with
                          | Some frag => main frag
                          | None => EmptyString
                          end;
           pass_inputs := omap (λ conn, resources w !! from_nodeId conn)
                               (getInputConnections (node_id node) s);
           pass_output := if decide (S (length (passes w)) = total) then screen
                          else intermediateTexture (length (passes w));
           pass_uniforms := collectUniforms node s |}].
Proof. intros Hs. unfold compileNode. by rewrite Hs. Qed.

(** The outputs of the passes of a walk, by index. *)
Lemma compile_walk_outputs (s : State) (total : nat) (sorted : list ShaderNode) :
  ∀ w,
    pass_output <$> passes (foldl (compileNode isStructural s total) w sorted)
    = (pass_output <$> passes w)
      ++ ((λ index, if decide (S index = total) then screen
                    else intermediateTexture index)
          <$> seq (length (passes w))
                  (length (List.filter (λ n, negb (isStructural n)) sorted))).
Proof.
  induction sorted as [|node sorted IH]; intros w; simpl.
  - by rewrite app_nil_r.
  - rewrite IH. destruct (isStructural node) eqn:Hs; simpl.
    + unfold compileNode. by rewrite Hs.
    + rewrite compileNode_output by done.
      rewrite fmap_app, length_app, <- app_assoc. simpl.
      by rewrite Nat.add_1_r.
Qed.

(** C5: for a graph with distinct node ids, an acyclic connection list and a
    stored output node that has a pass attached, [compile] returns a pass list
    whose last pass writes [screen], and whose every other pass writes the
    intermediate texture synthesized for its index, which is not [screen]; no
    two passes share an output. *)
Theorem compile_outputs (s : State)
    (Hids : distinctIds (nodes s))
    (Hacyclic : acyclic (connections s))
    (Houtput : ∃ node, node ∈ nodes s ∧ node_type node = output
                       ∧ isStructural node = false) :
  ∃ front last,
    compile isStructural s = Return (front ++ [last])
    ∧ pass_output last = screen
    ∧ (∀ index p, front !! index = Some p →
         pass_output p = intermediateTexture index ∧ pass_output p ≠ screen)
    ∧ NoDup (pass_output <$> front ++ [last]).
Proof.
  destruct (GraphFacts.getTopologicallySorted_acyclic s Hids Hacyclic)
    as (sorted & Hrun & Hperm & _).
  unfold compile. rewrite Hrun.
  set (total := length (List.filter (λ n, negb (isStructural n)) sorted)).
  set (w0 := {| passes := []; resources := ∅ |}).
  pose proof (compile_walk_outputs s total sorted w0) as Houts.
  simpl in Houts. fold total in Houts.
  assert (0 < total) as Hpos.
  { destruct Houtput as (node & Hnode & _ & Hemits).
    assert (node ∈ List.filter (λ n, negb (isStructural n)) sorted) as Hin.
    { apply list_elem_of_In, filter_In. split.
      - apply list_elem_of_In. by rewrite Hperm.
      - by rewrite Hemits. }
    unfold total. destruct (List.filter _ sorted); [by apply elem_of_nil in Hin|].
    simpl. lia. }
  destruct total as [|n]; [lia|].
  rewrite seq_S, fmap_app in Houts. simpl in Houts.
  rewrite decide_True in Houts by done.
  destruct (passes (foldl (compileNode isStructural s (S n)) w0 sorted))
    as [|p ps] eqn:Hps using rev_ind.
  { by destruct (seq 0 n). }
  clear IHps. rewrite fmap_app in Houts. simpl in Houts.
  apply app_inj_tail in Houts as [Hfront Hlast].
  assert (pass_output <$> ps = intermediateTexture <$> seq 0 n) as Hsynth.
  { rewrite Hfront. apply list_fmap_ext. intros i k Hk.
    apply lookup_seq in Hk as [-> Hlt]. by rewrite decide_False by lia. }
  exists ps, p. split; [done|]. split; [done|]. split.
  - intros index q Hq.
    assert ((pass_output <$> ps) !! index = Some (pass_output q)) as Hlook
      by by rewrite list_lookup_fmap, Hq.
    rewrite Hsynth, list_lookup_fmap in Hlook.
    destruct (seq 0 n !! index) as [k|] eqn:Hk; [|done].
    apply lookup_seq in Hk as [-> Hlt]. simpl in Hlook.
    injection Hlook as <-.
    split; [done|apply intermediateTexture_not_screen].
  - rewrite fmap_app. simpl. rewrite Hsynth, Hlast.
    apply NoDup_app. split; [|split; [|apply NoDup_singleton]].
    + apply NoDup_fmap_2; [apply intermediateTexture_inj|apply NoDup_seq].
    + intros out [k [-> Hk]]%list_elem_of_fmap Hscreen%list_elem_of_singleton.
      by apply (intermediateTexture_not_screen k).
Qed.

End compile.

Lemma compile_outputs_witness :
  ∃ front last,
    compile isSourceNode Fixtures.chainGraph = Return (front ++ [last])
    ∧ pass_output last = screen
    ∧ (∀ index p, front !! index = Some p →
         pass_output p = intermediateTexture index ∧ pass_output p ≠ screen)
    ∧ NoDup (pass_output <$> front ++ [last]).
Proof.
  apply (compile_outputs isSourceNode Fixtures.chainGraph).
  - unfold distinctIds. apply (bool_decide_unpack _). vm_compute. reflexivity.
  - apply (GraphFacts.acyclic_ranked _ Fixtures.chainRank).
    apply (bool_decide_unpack _). vm_compute. reflexivity.
  - exists (Fixtures.createOutputNode "output-1").
    split; [|split; reflexivity].
    apply list_elem_of_In. cbn. do 3 right. left. reflexivity.
Defined.

End CompilerFacts.

(** ** The blend modes *)

Module BlendModeFacts.
Import Blend.
Local Open Scope Q_scope.

Lemma lt_spec (x y : Q) : if lt x y then x < y else y <= x.
Proof.
  unfold lt. destruct (Qle_bool y x) eqn:H; simpl.
  - by apply Qle_bool_iff.
  - apply Qnot_le_lt. intros Hle. apply Qle_bool_iff in Hle. congruence.
Qed.

Lemma le_spec (x y : Q) : if le x y then x <= y else y < x.
Proof.
  unfold le. destruct (Qle_bool x y) eqn:H.
  - by apply Qle_bool_iff.
  - apply Qnot_le_lt. intros Hle. apply Qle_bool_iff in Hle. congruence.
Qed.

Lemma ge_spec (x y : Q) : if ge x y then y <= x else x < y.
Proof. apply (le_spec y x). Qed.

Lemma fmin_spec (x y : Q) : (fmin x y = x /\ x <= y) \/ (fmin x y = y /\ y < x).
Proof.
  unfold fmin. pose proof (lt_spec y x) as H. destruct (lt y x); [right|left]; done.
Qed.

Lemma fmax_spec (x y : Q) : (fmax x y = x /\ y <= x) \/ (fmax x y = y /\ x < y).
Proof.
  unfold fmax. pose proof (lt_spec x y) as H. destruct (lt x y); [right|left]; done.
Qed.

Lemma fabs_spec (x : Q) : (fabs x = x /\ 0 <= x) \/ (fabs x = - x /\ x < 0).
Proof.
  unfold fabs. pose proof (lt_spec x 0) as H. destruct (lt x 0); [right|left]; done.
Qed.

Lemma div_range (x y : Q) : 0 <= x -> 0 < y -> 0 <= x / y.
Proof. intros Hx Hy. apply Qle_shift_div_l; [done|]. lra. Qed.

Ltac cases_min_max :=
  repeat match goal with
  | |- context [fmin ?x ?y] =>
      let H := fresh in let E := fresh in
      destruct (fmin_spec x y) as [[E H]|[E H]]; rewrite E in *; clear E
  | |- context [fmax ?x ?y] =>
      let H := fresh in let E := fresh in
      destruct (fmax_spec x y) as [[E H]|[E H]]; rewrite E in *; clear E
  | |- context [fabs ?x] =>
      let H := fresh in let E := fresh in
      destruct (fabs_spec x) as [[E H]|[E H]]; rewrite E in *; clear E
  | |- context [if lt ?x ?y then _ else _] =>
      let H := fresh in pose proof (lt_spec x y) as H; destruct (lt x y)
  | |- context [if le ?x ?y then _ else _] =>
      let H := fresh in pose proof (le_spec x y) as H; destruct (le x y)
  | |- context [if ge ?x ?y then _ else _] =>
      let H := fresh in pose proof (ge_spec x y) as H; destruct (ge x y)
  end.

Ltac channels :=
  cbn [r g b a rgb vec4f_rgb_a select vcmp vzip vmap vmul vadd vsub vquot ssub smul
       vec3f_splat x3 y3 z3 xb yb zb overlay_light overlay_dark].

Ltac ranges :=
  unfold unit_range, same_rgb, same_color in *; channels;
  repeat match goal with H : _ /\ _ |- _ => destruct H end.

(** A closed color has its channels in [0,1]. *)
Ltac in_unit_range :=
  unfold unit_range; cbn [r g b a]; repeat split; vm_compute; discriminate.

(** Per mode: channels stay in [0,1]. *)
Lemma blend_normal_range base blend :
  unit_range base -> unit_range blend -> unit_range (blend_normal base blend).
Proof. done. Qed.

Lemma blend_multiply_range base blend :
  unit_range base -> unit_range blend -> unit_range (blend_multiply base blend).
Proof. unfold blend_multiply. intros. ranges. repeat split; nra. Qed.

Lemma blend_screen_range base blend :
  unit_range base -> unit_range blend -> unit_range (blend_screen base blend).
Proof. unfold blend_screen. intros. ranges. repeat split; nra. Qed.

Lemma blend_overlay_range base blend :
  unit_range base -> unit_range blend -> unit_range (blend_overlay base blend).
Proof.
  unfold blend_overlay. intros. ranges.
  repeat split; cases_min_max; nra.
Qed.

Lemma blend_hard_light_range base blend :
  unit_range base -> unit_range blend -> unit_range (blend_hard_light base blend).
Proof.
  unfold blend_hard_light. intros. ranges.
  repeat split; cases_min_max; nra.
Qed.

Lemma blend_add_range base blend :
  unit_range base -> unit_range blend -> unit_range (blend_add base blend).
Proof. unfold blend_add. intros. ranges. repeat split; cases_min_max; lra. Qed.

Lemma blend_subtract_range base blend :
  unit_range base -> unit_range blend -> unit_range (blend_subtract base blend).
Proof. unfold blend_subtract. intros. ranges. repeat split; cases_min_max; lra. Qed.

Lemma blend_difference_range base blend :
  unit_range base -> unit_range blend -> unit_range (blend_difference base blend).
Proof. unfold blend_difference. intros. ranges. repeat split; cases_min_max; lra. Qed.

Lemma blend_darken_range base blend :
  unit_range base -> unit_range blend -> unit_range (blend_darken base blend).
Proof. unfold blend_darken. intros. ranges. repeat split; cases_min_max; lra. Qed.

Lemma blend_lighten_range base blend :
  unit_range base -> unit_range blend -> unit_range (blend_lighten base blend).
Proof. unfold blend_lighten. intros. ranges. repeat split; cases_min_max; lra. Qed.

(** The channel of [blend_color_dodge]: the division is guarded by
    [blend >= 1], so its divisor is positive. *)
Lemma dodge_channel (x y : Q) :
  0 <= x <= 1 -> 0 <= y <= 1 ->
  0 <= (if ge y 1 then 1 else fmin (x / (1 - y)) 1) <= 1.
Proof.
  intros [Hx0 Hx1] [Hy0 Hy1]. pose proof (ge_spec y 1) as Hge.
  destruct (ge y 1); [lra|].
  assert (0 <= x / (1 - y)) by (apply div_range; lra).
  destruct (fmin_spec (x / (1 - y)) 1) as [[-> ?]|[-> ?]]; lra.
Qed.

(** The channel of [blend_color_burn]: the division is guarded by
    [blend <= 0]. *)
Lemma burn_channel (x y : Q) :
  0 <= x <= 1 -> 0 <= y <= 1 ->
  0 <= (if le y 0 then 0 else 1 - fmin ((1 - x) / y) 1) <= 1.
Proof.
  intros [Hx0 Hx1] [Hy0 Hy1]. pose proof (le_spec y 0) as Hle.
  destruct (le y 0); [lra|].
  assert (0 <= (1 - x) / y) by (apply div_range; lra).
  destruct (fmin_spec ((1 - x) / y) 1) as [[-> ?]|[-> ?]]; lra.
Qed.

Lemma blend_color_dodge_range base blend :
  unit_range base -> unit_range blend -> unit_range (blend_color_dodge base blend).
Proof.
  unfold blend_color_dodge. intros. ranges.
  repeat split; apply dodge_channel; lra.
Qed.

Lemma blend_color_burn_range base blend :
  unit_range base -> unit_range blend -> unit_range (blend_color_burn base blend).
Proof.
  unfold blend_color_burn. intros. ranges.
  repeat split; apply burn_channel; lra.
Qed.

(** X17. Every blend function but [blend_soft_light] maps two colors with
    channels in [0,1] to a color with channels in [0,1], and gives it the
    alpha of the blend layer. *)
Theorem blend_modes_keep_unit_range (name : string)
    (blendFn : vec4f -> vec4f -> vec4f) (base blend : vec4f)
    (Hmode : (name, blendFn) ∈ blend_functions)
    (Hbase : unit_range base) (Hblend : unit_range blend) :
  unit_range (blendFn base blend) /\ a (blendFn base blend) = a blend.
Proof.
  unfold blend_functions in Hmode.
  repeat (apply elem_of_cons in Hmode as [[= -> ->]|Hmode]);
    [..|by apply elem_of_nil in Hmode]; (split; [|reflexivity]).
  - by apply blend_normal_range.
  - by apply blend_multiply_range.
  - by apply blend_screen_range.
  - by apply blend_overlay_range.
  - by apply blend_add_range.
  - by apply blend_subtract_range.
  - by apply blend_difference_range.
  - by apply blend_darken_range.
  - by apply blend_lighten_range.
  - by apply blend_color_dodge_range.
  - by apply blend_color_burn_range.
  - by apply blend_hard_light_range.
Qed.

Lemma blend_modes_keep_unit_range_witness :
  let out := blend_color_dodge (Vec4f (1 # 2) (1 # 4) 1 1)
                               (Vec4f (1 # 2) 1 0 (1 # 2)) in
  unit_range out /\ a out = 1 # 2.
Proof.
  apply (blend_modes_keep_unit_range "blend_color_dodge" blend_color_dodge
           (Vec4f (1 # 2) (1 # 4) 1 1) (Vec4f (1 # 2) 1 0 (1 # 2))).
  - unfold blend_functions. do 9 apply list_elem_of_further.
    apply list_elem_of_here.
  - in_unit_range.
  - in_unit_range.
Defined.

(** X18. [blend_hard_light] gives the color channels [blend_overlay] gives with
    the two layers exchanged. *)
Theorem hard_light_is_overlay_swapped (base blend : vec4f) :
  same_rgb (blend_hard_light base blend) (blend_overlay blend base).
Proof.
  unfold blend_hard_light, blend_overlay. ranges.
  repeat split; cases_min_max; ring.
Qed.

(** X19. Multiply, screen, add, difference, darken and lighten give the same
    color channels when the two layers are exchanged. *)
Theorem symmetric_blend_modes (x y : vec4f) :
  same_rgb (blend_multiply x y) (blend_multiply y x)
  /\ same_rgb (blend_screen x y) (blend_screen y x)
  /\ same_rgb (blend_add x y) (blend_add y x)
  /\ same_rgb (blend_difference x y) (blend_difference y x)
  /\ same_rgb (blend_darken x y) (blend_darken y x)
  /\ same_rgb (blend_lighten x y) (blend_lighten y x).
Proof.
  unfold blend_multiply, blend_screen, blend_add, blend_difference,
    blend_darken, blend_lighten. ranges.
  repeat split; try ring; cases_min_max; lra.
Qed.
















End BlendModeFacts.

(** ** The builder, call by call *)

Module BuilderFacts.

Import Graph GraphProps GraphFacts.

(** Decide a closed goal by evaluation. *)
Ltac decided := apply (bool_decide_unpack _); vm_compute; reflexivity.

(** *** Lookups in the node map *)

Lemma hasNode_getNode (nodeId : string) (s : State) :
  hasNode nodeId s = bool_decide (is_Some (getNode nodeId s)).
Proof.
  unfold hasNode. destruct (getNode nodeId s) as [node|] eqn:Hget.
  - apply getNode_Some in Hget as [Hin <-].
    rewrite !bool_decide_eq_true_2; [done|by eauto|].
    apply list_elem_of_fmap. eauto.
  - apply getNode_None in Hget.
    rewrite !bool_decide_eq_false_2; [done| |done]. by intros [? ?].
Qed.

Lemma getNode_app (nodeId : string) (s : State) (ns : list ShaderNode) :
  getNode nodeId (set_nodes (nodes s ++ ns) s)
  = match getNode nodeId s with
    | Some node => Some node
    | None => List.find (λ n, bool_decide (node_id n = nodeId)) ns
    end.
Proof.
  unfold getNode. simpl. induction (nodes s) as [|n l IH]; [done|].
  simpl. by destruct (bool_decide (node_id n = nodeId)).
Qed.

Lemma find_filter_other (nodeId other : string) (ns : list ShaderNode) :
  other ≠ nodeId →
  List.find (λ n, bool_decide (node_id n = other))
            (filter (λ n, node_id n ≠ nodeId) ns)
  = List.find (λ n, bool_decide (node_id n = other)) ns.
Proof.
  intros Hne. induction ns as [|n ns IH]; [done|].
  rewrite filter_cons. case_decide as Hkeep; simpl.
  - by rewrite IH.
  - rewrite IH. rewrite bool_decide_eq_false_2; [done|congruence].
Qed.

Lemma find_filter_removed (nodeId : string) (ns : list ShaderNode) :
  List.find (λ n, bool_decide (node_id n = nodeId))
            (filter (λ n, node_id n ≠ nodeId) ns) = None.
Proof.
  induction ns as [|n ns IH]; [done|].
  rewrite filter_cons. case_decide as Hkeep; simpl; [|done].
  by rewrite bool_decide_eq_false_2.
Qed.

(** X1. [addNode] of a node whose id is not stored returns: [getNode] of the id
    then gives the node, every other id is looked up as before, the node is
    the last of [getNodes] and the connections are untouched.  With an id
    that is stored it throws [NodeAlreadyExists] and leaves the builder as it
    was. *)
Theorem addNode_getNode (node : ShaderNode) (s : State) :
  (getNode (node_id node) s = None →
   ∃ s', addNode node s = (Return (), s')
     ∧ getNode (node_id node) s' = Some node
     ∧ (∀ other, other ≠ node_id node → getNode other s' = getNode other s)
     ∧ getNodes s' = getNodes s ++ [node]
     ∧ connections s' = connections s)
  ∧ (∀ stored, getNode (node_id node) s = Some stored →
     addNode node s = (Throw (NodeAlreadyExists (node_id node)), s)).
Proof.
  unfold addNode. rewrite hasNode_getNode. split.
  - intros Hfresh. rewrite Hfresh.
    rewrite bool_decide_eq_false_2 by (by intros [? ?]).
    eexists. split; [done|]. split; [|split; [|done]].
    + rewrite getNode_app, Hfresh. simpl. by rewrite bool_decide_eq_true_2.
    + intros other Hne. rewrite getNode_app.
      destruct (getNode other s); [done|]. simpl.
      by rewrite bool_decide_eq_false_2.
  - intros stored Hstored. rewrite Hstored.
    by rewrite bool_decide_eq_true_2 by eauto.
Qed.

Lemma addNode_getNode_witness :
  addNode (Fixtures.createSourceNode "source-1") Fixtures.chainGraph
  = (Throw (NodeAlreadyExists "source-1"), Fixtures.chainGraph)
  ∧ ∃ s', addNode (Fixtures.createSourceNode "source-2") Fixtures.chainGraph
          = (Return (), s')
      ∧ getNode "source-2" s' = Some (Fixtures.createSourceNode "source-2")
      ∧ connections s' = connections Fixtures.chainGraph.
Proof.
  split.
  - apply (proj2 (addNode_getNode (Fixtures.createSourceNode "source-1")
                    Fixtures.chainGraph)
             (Fixtures.createSourceNode "source-1")).
    reflexivity.
  - destruct (proj1 (addNode_getNode (Fixtures.createSourceNode "source-2")
                       Fixtures.chainGraph))
      as (s' & Hrun & Hget & _ & _ & Hconns); [reflexivity|].
    exists s'. split; [exact Hrun|]. split; [exact Hget|exact Hconns].
Defined.

(** X2. [removeNode] of a stored id returns [true]; after it the id is not stored,
    every other id is looked up as before, the connections left are exactly
    those with neither end at the node, in their order, and a second
    [removeNode] of the id returns [false].  On an id that is not stored it
    returns [false] and changes nothing. *)
Theorem removeNode_cascades (nodeId : string) (s : State) :
  (nodeId ∈ nodeKeys s →
   ∃ s', removeNode nodeId s = (true, s')
     ∧ getNode nodeId s' = None
     ∧ (∀ other, other ≠ nodeId → getNode other s' = getNode other s)
     ∧ (∀ c, c ∈ connections s' ↔
             c ∈ connections s ∧ from_nodeId c ≠ nodeId ∧ to_nodeId c ≠ nodeId)
     ∧ connections s' `sublist_of` connections s
     ∧ removeNode nodeId s' = (false, s'))
  ∧ (nodeId ∉ nodeKeys s → removeNode nodeId s = (false, s)).
Proof.
  unfold removeNode, hasNode, nodeKeys. split.
  - intros Hstored. rewrite bool_decide_eq_true_2 by done.
    eexists. split; [done|]. simpl.
    split; [apply find_filter_removed|].
    split; [intros other Hne; by apply find_filter_other|].
    split; [|split; [apply sublist_filter|]].
    + intros c. rewrite list_elem_of_filter. tauto.
    + rewrite bool_decide_eq_false_2; [done|].
      intros [n [Hid Hn]]%list_elem_of_fmap.
      apply list_elem_of_filter in Hn as [Hne _]. done.
  - intros Hmissing. by rewrite bool_decide_eq_false_2.
Qed.

Lemma removeNode_cascades_witness :
  (∃ s', removeNode "effect-1" Fixtures.chainGraph = (true, s')
     ∧ getNode "effect-1" s' = None
     ∧ connections s' `sublist_of` connections Fixtures.chainGraph
     ∧ removeNode "effect-1" s' = (false, s'))
  ∧ removeNode "ghost" Fixtures.chainGraph = (false, Fixtures.chainGraph).
Proof.
  split.
  - destruct (proj1 (removeNode_cascades "effect-1" Fixtures.chainGraph))
      as (s' & Hrun & Hgone & _ & _ & Hsub & Hagain); [decided|].
    exists s'. split; [exact Hrun|]. split; [exact Hgone|].
    split; [exact Hsub|exact Hagain].
  - apply (proj2 (removeNode_cascades "ghost" Fixtures.chainGraph)).
    decided.
Defined.



(** *** The cycle check answers exactly reachability *)

Lemma forSome_true_inv {A S : Type} (f : A → S → Outcome (bool * S))
    (l : list A) (s s' : S) :
  forSome f l s = Return (true, s') →
  ∃ x s1, x ∈ l ∧ f x s1 = Return (true, s').
Proof.
  revert s. induction l as [|x l IH]; intros s; simpl; [done|].
  destruct (f x s) as [[[|] s1]| |] eqn:Hf; [| |done..].
  - intros [= <-]. exists x, s. split; [apply elem_of_cons; by left|done].
  - intros (y & s2 & Hy & Hcall)%IH. exists y, s2.
    split; [apply elem_of_cons; by right|done].
Qed.

Lemma canReach_true (conns : list Connection) (target : string) (fuel : nat) :
  ∀ start seen seen',
    canReach fuel conns target start seen = Return (true, seen') →
    rtc (edge conns) start target.
Proof.
  induction fuel as [|fuel IH]; intros start seen seen'; simpl; [done|].
  case_decide as Htarget; [by intros _; subst|].
  case_decide as Hseen; [done|].
  intros (c & s1 & [Hfrom Hc]%list_elem_of_filter & Hcall)%forSome_true_inv.
  eapply rtc_l; [|by eapply IH]. by exists c.
Qed.

Lemma wouldCreateCycle_true (newConnection : Connection) (s : State) :
  wouldCreateCycle newConnection s = Return true →
  rtc (edge (connections s)) (to_nodeId newConnection) (from_nodeId newConnection).
Proof.
  unfold wouldCreateCycle.
  destruct (canReach _ _ _ _ _) as [[[|] seen']| |] eqn:Hrun; try done.
  intros _. by eapply canReach_true.
Qed.

(** X4. [wouldCreateCycle] returns on every builder state, and answers [true]
    exactly when the connections lead from the target node of the new
    connection to its source node, in zero or more steps (so a connection
    from a node to itself counts as a cycle). *)
Theorem wouldCreateCycle_answers_reachability (newConnection : Connection)
    (s : State) :
  ∃ answer,
    wouldCreateCycle newConnection s = Return answer
    ∧ (answer = true ↔
       rtc (edge (connections s)) (to_nodeId newConnection)
           (from_nodeId newConnection)).
Proof.
  destruct (wouldCreateCycle_returns newConnection s) as [answer Hrun].
  exists answer. split; [done|]. split.
  - intros ->. by apply wouldCreateCycle_true.
  - intros Hreach. apply wouldCreateCycle_reachable in Hreach. congruence.
Qed.

Lemma rtc_edge_mono (cs cs' : list Connection) (x y : string) :
  (∀ c, c ∈ cs → c ∈ cs') → rtc (edge cs) x y → rtc (edge cs') x y.
Proof.
  intros Hsub. apply rtc_subrel. intros u v. by apply edge_mono.
Qed.

(** Connections that go up a rank lead only to ranks at least as high. *)
Lemma rtc_ranked (cs : list Connection) (rank : string → nat) (x y : string) :
  Forall (λ c, rank (from_nodeId c) < rank (to_nodeId c)) cs →
  rtc (edge cs) x y → rank x ≤ rank y.
Proof.
  intros Hrank. induction 1 as [x|x y z (c & Hc & <- & <-) _ IH]; [done|].
  pose proof (proj1 (Forall_forall _ _) Hrank c Hc). simpl in *. lia.
Qed.

(** X5. Between two stored nodes with the named ports, on a builder whose
    connection ids are distinct, [connect] throws the cycle error when the
    connections lead from the target node to the source node, and otherwise
    returns the id [conn-k] of the incremented counter [k]. *)
Theorem connect_outcome (f o t i : string) (s : State)
    (fromNode toNode : ShaderNode)
    (Hfrom : getNode f s = Some fromNode) (Hto : getNode t s = Some toNode)
    (Hout : is_Some (outputs fromNode !! o))
    (Hin : is_Some (inputs toNode !! i))
    (Hids : NoDup (conn_id <$> connections s)) :
  (rtc (edge (connections s)) t f →
   (connect f o t i s).1 = Throw WouldCreateCycle)
  ∧ (¬ rtc (edge (connections s)) t f →
     (connect f o t i s).1
     = Return ("conn-" +:+ pretty (S (connectionIdCounter s)))).
Proof.
  split.
  - intros Hreach.
    by destruct (connect_rejects_cycle f o t i s fromNode toNode)
      as (s' & -> & _).
  - intros Hno. unfold connect. rewrite Hfrom, Hto.
    rewrite decide_False by (intros Hnone; rewrite Hnone in Hout; by destruct Hout).
    rewrite decide_False by (intros Hnone; rewrite Hnone in Hin; by destruct Hin).
    match goal with
    | |- context [wouldCreateCycle ?c ?s2] =>
        destruct (wouldCreateCycle_returns c s2) as [[|] Hcheck]; rewrite Hcheck
    end.
    + exfalso. apply Hno. apply wouldCreateCycle_true in Hcheck. simpl in Hcheck.
      eapply rtc_edge_mono; [|exact Hcheck].
      intros c. destruct (List.find _ (connections s)); [|done].
      simpl. by intros [_ ?]%list_elem_of_filter.
    + simpl. by destruct (List.find _ (connections s)).
Qed.

Lemma connect_outcome_witness :
  (connect "effect-2" "output" "effect-1" "input" Fixtures.chainGraph).1
  = Throw WouldCreateCycle
  ∧ (connect "source-1" "output" "effect-2" "input" Fixtures.chainGraph).1
    = Return "conn-4".
Proof.
  split.
  - apply (connect_outcome "effect-2" "output" "effect-1" "input"
             Fixtures.chainGraph
             (Fixtures.createEffectNode "effect-2" "Contrast" 1)
             (Fixtures.createEffectNode "effect-1" "Brightness" 0));
      [reflexivity|reflexivity|by eexists|by eexists|decided|].
    apply rtc_once.
    exists {| conn_id := "conn-2"; from_nodeId := "effect-1";
              from_output := "output"; to_nodeId := "effect-2";
              to_input := "input" |}.
    split; [decided|]. split; reflexivity.
  - apply (connect_outcome "source-1" "output" "effect-2" "input"
             Fixtures.chainGraph
             (Fixtures.createSourceNode "source-1")
             (Fixtures.createEffectNode "effect-2" "Contrast" 1));
      [reflexivity|reflexivity|by eexists|by eexists|decided|].
    intros Hreach.
    apply (rtc_ranked _ Fixtures.chainRank) in Hreach; [|decided].
    vm_compute in Hreach. lia.
Defined.

(** *** What every call keeps *)

Lemma noDangling_alt (s : State) :
  noDangling s ↔
  ∀ c, c ∈ connections s →
       from_nodeId c ∈ nodeKeys s ∧ to_nodeId c ∈ nodeKeys s.
Proof.
  unfold noDangling, dangling, nodeKeys. split; intros H c Hc.
  - specialize (H c Hc). split; apply dec_stable; tauto.
  - destruct (H c Hc). tauto.
Qed.

(** The state [connect] leaves, whatever its outcome. *)
Lemma connect_shape (f o t i : string) (s : State) :
  let s' := (connect f o t i s).2 in
  nodes s' = nodes s ∧ store s' = store s
  ∧ ((connections s' `sublist_of` connections s
      ∧ connectionIdCounter s ≤ connectionIdCounter s')
     ∨ (connectionIdCounter s' = S (connectionIdCounter s)
        ∧ f ∈ nodeKeys s ∧ t ∈ nodeKeys s
        ∧ connect f o t i s
          = (Return ("conn-" +:+ pretty (S (connectionIdCounter s))), s'))).
Proof.
  unfold connect.
  destruct (getNode f s) as [fromNode|] eqn:Hfrom;
    [|simpl; split; [done|]; split; [done|]; by left].
  destruct (getNode t s) as [toNode|] eqn:Hto;
    [|simpl; split; [done|]; split; [done|]; by left].
  case_decide; [simpl; split; [done|]; split; [done|]; by left|].
  case_decide; [simpl; split; [done|]; split; [done|]; by left|].
  match goal with
  | |- context [wouldCreateCycle ?c ?s2] =>
      destruct (wouldCreateCycle_returns c s2) as [[|] ->]
  end; simpl.
  - split; [by destruct (List.find _ (connections s))|].
    split; [by destruct (List.find _ (connections s))|]. left.
    destruct (List.find _ (connections s)); simpl;
      (split; [first [apply sublist_filter|done]|lia]).
  - split; [by destruct (List.find _ (connections s))|].
    split; [by destruct (List.find _ (connections s))|]. right.
    apply getNode_Some in Hfrom as [Hf <-]. apply getNode_Some in Hto as [Ht <-].
    split; [by destruct (List.find _ (connections s))|].
    split; [apply list_elem_of_fmap; by eauto|].
    split; [apply list_elem_of_fmap; by eauto|].
    by destruct (List.find _ (connections s)).
Qed.

Lemma idsIssued_sublist (s s' : State) :
  connections s' `sublist_of` connections s →
  connectionIdCounter s ≤ connectionIdCounter s' →
  idsIssued s → idsIssued s'.
Proof.
  intros Hsub Hle [Hnd Hissued]. split.
  - eapply sublist_NoDup; [exact Hnd|]. by apply fmap_sublist.
  - intros c Hc. destruct (Hissued c) as (k & Hk & Hid).
    + eapply sublist_subseteq; done.
    + exists k. split; [lia|done].
Qed.

Lemma acyclic_sublist (cs cs' : list Connection) :
  cs' `sublist_of` cs → acyclic cs → acyclic cs'.
Proof.
  intros Hsub. apply acyclic_mono. intros c. by apply sublist_subseteq.
Qed.

Lemma connect_keeps_wellFormed (f o t i : string) (s : State) :
  wellFormed s → wellFormed (connect f o t i s).2.
Proof.
  intros (Hids & Hacyclic & Hdangling & Hinputs & Hissued).
  destruct (connect_shape f o t i s) as (Hnodes & _ & [[Hsub Hcount]|Hnew]).
  - split; [by rewrite Hnodes|]. split; [by eapply acyclic_sublist|].
    split; [|split; [by eapply inputUnique_sublist|by eapply idsIssued_sublist]].
    apply noDangling_alt. intros c Hc. unfold nodeKeys. rewrite Hnodes.
    apply (proj1 (noDangling_alt s) Hdangling).
    eapply sublist_subseteq; done.
  - destruct Hnew as (Hcount & Hf & Ht & Hcall).
    pose proof (connect_Return _ _ _ _ _ _ _ Hcall) as (_ & _ & _ & Hconns).
    split; [by rewrite Hnodes|].
    split; [by eapply connect_keeps_acyclic|].
    split; [|split].
    + apply noDangling_alt. intros c. unfold nodeKeys. rewrite Hnodes, Hconns.
      intros [Hc| ->%list_elem_of_singleton]%elem_of_app; [|done].
      apply (proj1 (noDangling_alt s) Hdangling).
      eapply sublist_subseteq; [apply connect_removal_sublist|done].
    + intros nodeId input. rewrite Hconns, filter_app, length_app.
      destruct (decide (targets nodeId input
                  {| conn_id := "conn-" +:+ pretty (S (connectionIdCounter s));
                     from_nodeId := f; from_output := o;
                     to_nodeId := t; to_input := i |})) as [[Ht' Hi']|Hno].
      * simpl in Ht', Hi'. subst nodeId input.
        rewrite connect_input_cleared by done.
        rewrite filter_cons_True by done. simpl. lia.
      * rewrite (filter_cons_False _ _ _ Hno). simpl. rewrite Nat.add_0_r.
        eapply inputUnique_sublist; [apply connect_removal_sublist|done].
    + destruct Hissued as [Hnd Hissued]. unfold idsIssued.
      rewrite Hconns, Hcount. split.
      * rewrite fmap_app. simpl. apply NoDup_app.
        split; [|split; [|apply NoDup_singleton]].
        -- eapply sublist_NoDup; [exact Hnd|].
           apply fmap_sublist, connect_removal_sublist.
        -- intros id [c [-> Hc]]%list_elem_of_fmap Hnew%list_elem_of_singleton.
           destruct (Hissued c) as (k & Hk & Hid).
           { eapply sublist_subseteq; [apply connect_removal_sublist|done]. }
           rewrite Hid in Hnew. apply (inj (String.app "conn-")) in Hnew.
           apply (inj pretty) in Hnew. lia.
      * intros c [Hc| ->%list_elem_of_singleton]%elem_of_app.
        -- destruct (Hissued c) as (k & Hk & Hid).
           { eapply sublist_subseteq; [apply connect_removal_sublist|done]. }
           exists k. split; [lia|done].
        -- exists (S (connectionIdCounter s)). split; [lia|done].
Qed.

Lemma addNode_keeps_wellFormed (node : ShaderNode) (s : State) :
  wellFormed s → wellFormed (addNode node s).2.
Proof.
  intros (Hids & Hacyclic & Hdangling & Hinputs & Hissued).
  destruct (addNode node s) as [[[]| |] s'] eqn:Hcall; unfold addNode in Hcall;
    destruct (hasNode (node_id node) s) eqn:Hhas; simplify_eq; simpl;
    try done.
  split; [|split; [done|split; [|done]]].
  - eapply (addNode_distinctIds node s); [|done].
    unfold addNode. by rewrite Hhas.
  - apply noDangling_alt. intros c Hc. unfold nodeKeys. simpl.
    rewrite fmap_app. destruct (proj1 (noDangling_alt s) Hdangling c Hc).
    split; apply elem_of_app; by left.
Qed.

Lemma removeNode_keeps_wellFormed (nodeId : string) (s : State) :
  wellFormed s → wellFormed (removeNode nodeId s).2.
Proof.
  intros (Hids & Hacyclic & Hdangling & Hinputs & Hissued).
  split; [by apply removeNode_distinctIds|].
  unfold removeNode. destruct (hasNode nodeId s); [|done]. simpl.
  split; [eapply acyclic_sublist; [apply sublist_filter|done]|].
  split; [|split].
  - apply noDangling_alt. intros c [[Hf Ht] Hc]%list_elem_of_filter.
    destruct (proj1 (noDangling_alt s) Hdangling c Hc) as [Hfrom Hto].
    unfold nodeKeys in *. simpl.
    split.
    + apply list_elem_of_fmap in Hfrom as (n & Hn & Hin).
      apply list_elem_of_fmap. exists n. split; [done|].
      apply list_elem_of_filter. split; [congruence|done].
    + apply list_elem_of_fmap in Hto as (n & Hn & Hin).
      apply list_elem_of_fmap. exists n. split; [done|].
      apply list_elem_of_filter. split; [congruence|done].
  - eapply inputUnique_sublist; [apply sublist_filter|done].
  - eapply (idsIssued_sublist s); [apply sublist_filter|done|done].
Qed.

Lemma disconnect_keeps_wellFormed (connectionId : string) (s : State) :
  wellFormed s → wellFormed (disconnect connectionId s).2.
Proof.
  intros (Hids & Hacyclic & Hdangling & Hinputs & Hissued).
  unfold disconnect.
  destruct (removeFirst connectionId (connections s)) as [cs|] eqn:Hrm; [|done].
  apply removeFirst_sublist in Hrm. simpl.
  split; [done|]. split; [by eapply acyclic_sublist|]. split; [|split].
  - apply noDangling_alt. intros c Hc.
    apply (proj1 (noDangling_alt s) Hdangling). eapply sublist_subseteq; done.
  - by eapply inputUnique_sublist.
  - by eapply (idsIssued_sublist s).
Qed.

Lemma updateNodeParams_keeps_wellFormed (nodeId : string)
    (newParams : gmap string Value) (s : State) :
  wellFormed s → wellFormed (updateNodeParams nodeId newParams s).2.
Proof. unfold updateNodeParams. by destruct (getNode nodeId s). Qed.

(** X6. Every mutating call of the builder ([addNode], [removeNode],
    [updateNodeParams], [connect], [disconnect]), whether it returns or
    throws, keeps the builder well formed: distinct node ids, no directed
    cycle, no connection to a missing node, at most one connection per input,
    distinct connection ids issued by the counter. *)
Theorem call_keeps_wellFormed (c : Call) (s : State)
    (Hwf : wellFormed s) :
  wellFormed (call c s).
Proof.
  destruct c; simpl.
  - by apply addNode_keeps_wellFormed.
  - by apply removeNode_keeps_wellFormed.
  - by apply updateNodeParams_keeps_wellFormed.
  - by apply connect_keeps_wellFormed.
  - by apply disconnect_keeps_wellFormed.
Qed.

Lemma new_builder_wellFormed (id : string) (counter : nat)
    (h : gmap nat ParamDef) :
  wellFormed (new_builder id counter h).
Proof.
  split; [apply NoDup_nil_2|]. split.
  { intros x Hx. assert (∀ u v, tc (edge []) u v → False) as Hnone; [|eauto].
    induction 1 as [u v (c & Hc & _)|u v w (c & Hc & _) _ _];
      by apply elem_of_nil in Hc. }
  split; [intros c Hc; by apply elem_of_nil in Hc|].
  split; [intros nodeId input; simpl; lia|].
  split; [apply NoDup_nil_2|]. intros c Hc. by apply elem_of_nil in Hc.
Qed.

Lemma calls_wellFormed (cs : list Call) :
  ∀ s, wellFormed s → wellFormed (calls cs s).
Proof.
  induction cs as [|c cs IH]; intros s Hwf; [done|].
  simpl. apply IH. destruct c; simpl.
  - by apply addNode_keeps_wellFormed.
  - by apply removeNode_keeps_wellFormed.
  - by apply updateNodeParams_keeps_wellFormed.
  - by apply connect_keeps_wellFormed.
  - by apply disconnect_keeps_wellFormed.
Qed.

Lemma chainNodes_wellFormed : wellFormed Fixtures.chainNodes.
Proof.
  exact (calls_wellFormed
           [CallAddNode (Fixtures.createSourceNode "source-1");
            CallAddNode (Fixtures.createEffectNode "effect-1" "Brightness" 0);
            CallAddNode (Fixtures.createEffectNode "effect-2" "Contrast" 1);
            CallAddNode (Fixtures.createOutputNode "output-1")]
           _ (new_builder_wellFormed "graph" 0 _)).
Qed.

Lemma call_keeps_wellFormed_witness :
  wellFormed
    (call (CallConnect "source-1" "output" "effect-1" "input")
          Fixtures.chainNodes).
Proof.
  apply (call_keeps_wellFormed
           (CallConnect "source-1" "output" "effect-1" "input")
           Fixtures.chainNodes).
  apply chainNodes_wellFormed.
Defined.

(** X7. After any sequence of calls on a new builder the graph is well formed
    and [getTopologicallySorted] returns a permutation of the stored nodes in
    which, for every connection, the source node comes before the target
    node (both are stored). *)
Theorem built_graph_sorts (cs : list Call) (id : string) (counter : nat)
    (h : gmap nat ParamDef) :
  let s := calls cs (new_builder id counter h) in
  wellFormed s
  ∧ ∃ sorted,
      getTopologicallySorted s = Return sorted
      ∧ sorted ≡ₚ nodes s
      ∧ ∀ c, c ∈ connections s →
          ∃ fromNode toNode,
            getNode (from_nodeId c) s = Some fromNode
            ∧ getNode (to_nodeId c) s = Some toNode
            ∧ before fromNode toNode sorted.
Proof.
  cbv zeta.
  pose proof (calls_wellFormed cs _ (new_builder_wellFormed id counter h)) as Hwf.
  split; [done|].
  destruct Hwf as (Hids & Hacyclic & Hdangling & _ & _).
  destruct (getTopologicallySorted_acyclic _ Hids Hacyclic)
    as (sorted & Hrun & Hperm & Horder).
  exists sorted. split; [done|]. split; [done|].
  intros c Hc.
  destruct (proj1 (noDangling_alt _) Hdangling c Hc) as [Hfrom Hto].
  apply list_elem_of_fmap in Hfrom as (m & Hm & Hmin).
  apply list_elem_of_fmap in Hto as (n & Hn & Hnin).
  exists m, n. rewrite Hm, Hn.
  split; [by apply getNode_stored|]. split; [by apply getNode_stored|].
  by apply (Horder c).
Qed.

(** *** The sort on any graph *)

Lemma forEach_Throw_inv {A S : Type} (f : A → S → Outcome S) (l : list A)
    (s : S) (e : Error) :
  forEach f l s = Throw e → ∃ x s1, x ∈ l ∧ f x s1 = Throw e.
Proof.
  revert s. induction l as [|x l IH]; intros s; simpl; [done|].
  destruct (f x s) as [s1| |] eqn:Hf; [| |done].
  - intros (y & s2 & Hy & Hcall)%IH. exists y, s2.
    split; [apply elem_of_cons; by right|done].
  - intros [= <-]. exists x, s. split; [apply elem_of_cons; by left|done].
Qed.

Lemma visit_throws_cycle (s : State) (fuel : nat) :
  ∀ nodeId st e, visit fuel s nodeId st = Throw e → e = CycleDetected.
Proof.
  induction fuel as [|fuel IH]; intros nodeId st e; simpl; [done|].
  case_decide; [done|]. case_decide; [by intros [= <-]|].
  destruct (forEach _ _ _) as [st2| |] eqn:Hloop; [done| |done].
  intros [= <-]. apply forEach_Throw_inv in Hloop as (c & s1 & _ & Hcall).
  by eapply IH.
Qed.

Lemma getTopologicallySorted_Throw (s : State) (e : Error) :
  getTopologicallySorted s = Throw e → e = CycleDetected.
Proof.
  unfold getTopologicallySorted.
  destruct (forEach _ _ _) as [st| |] eqn:Hloop; [done| |done].
  intros [= <-]. apply forEach_Throw_inv in Hloop as (k & s1 & _ & Hcall).
  by eapply visit_throws_cycle.
Qed.

Lemma getTopologicallySorted_Return (s : State) (sorted : list ShaderNode) :
  distinctIds (nodes s) →
  getTopologicallySorted s = Return sorted →
  sorted ≡ₚ nodes s
  ∧ ∀ c m n, c ∈ connections s → m ∈ nodes s → n ∈ nodes s →
             node_id m = from_nodeId c → node_id n = to_nodeId c →
             before m n sorted.
Proof.
  intros Hids. unfold getTopologicallySorted.
  destruct (forEach _ _ _) as [st| |] eqn:Hrun; [|done..].
  intros [= <-].
  apply (forEach_Return_inv _
           (λ handled st, sortInv s st ∧ ∀ k, k ∈ handled → k ∈ visited st))
    in Hrun.
  - destruct Hrun as [[Hstored Hres Hnodup Hord Hdisj] Hall].
    assert (∀ m, m ∈ nodes s → m ∈ result st) as Hevery.
    { intros m Hm. apply Hres; [done|]. apply Hall.
      apply list_elem_of_fmap. eauto. }
    split.
    + apply NoDup_Permutation; [done|by eapply NoDup_fmap_1|].
      intros m. split; [apply Hstored|apply Hevery].
    + intros c m n Hc Hm Hn Hmid Hnid. apply (Hord c); auto.
  - split; [by apply sortInv_initial|]. intros k Hk. by apply elem_of_nil in Hk.
  - intros handled k s1 s2 _ [Hinv1 Hdone] Hcall.
    apply visit_sound in Hcall as (_ & Hsub & Hk & Hinv2); [|done..].
    split; [done|].
    intros k' [Hk'| ->%list_elem_of_singleton]%elem_of_app; [|done].
    apply Hsub. by apply Hdone.
Qed.

(** X8. On any builder state, also one that [fromJSON] restored from unchecked
    data, [getTopologicallySorted] either returns a permutation of the stored
    nodes with the stored source of every connection before its stored
    target, or throws [CycleDetected]; it does nothing else. *)
Theorem getTopologicallySorted_outcome (s : State)
    (Hids : distinctIds (nodes s)) :
  (∃ sorted,
     getTopologicallySorted s = Return sorted
     ∧ sorted ≡ₚ nodes s
     ∧ ∀ c fromNode toNode,
         c ∈ connections s →
         getNode (from_nodeId c) s = Some fromNode →
         getNode (to_nodeId c) s = Some toNode →
         before fromNode toNode sorted)
  ∨ getTopologicallySorted s = Throw CycleDetected.
Proof.
  destruct (getTopologicallySorted s) as [sorted|e|] eqn:Hrun.
  - left. exists sorted. split; [done|].
    destruct (getTopologicallySorted_Return s sorted Hids Hrun) as [Hperm Horder].
    split; [done|].
    intros c fromNode toNode Hc [Hm Hmid]%getNode_Some [Hn Hnid]%getNode_Some.
    by apply (Horder c).
  - right. by rewrite (getTopologicallySorted_Throw s e Hrun).
  - by destruct (getTopologicallySorted_in_budget s).
Qed.

Lemma getTopologicallySorted_outcome_witness :
  getTopologicallySorted Fixtures.cyclicGraph = Throw CycleDetected
  ∧ ∃ sorted, getTopologicallySorted Fixtures.chainGraph = Return sorted
      ∧ sorted ≡ₚ nodes Fixtures.chainGraph.
Proof.
  split.
  - destruct (getTopologicallySorted_outcome Fixtures.cyclicGraph)
      as [(sorted & Hrun & _)|Hthrow]; [unfold distinctIds; decided| |exact Hthrow].
    vm_compute in Hrun. discriminate Hrun.
  - destruct (getTopologicallySorted_outcome Fixtures.chainGraph)
      as [(sorted & Hrun & Hperm & _)|Hthrow]; [unfold distinctIds; decided| |].
    + exists sorted. split; [exact Hrun|exact Hperm].
    + vm_compute in Hthrow. discriminate Hthrow.
Defined.

Section ranked.

Variable s : State.

Lemma upstreamRanked_leave (nodeId : string) (st2 : SortState)
    (res : list ShaderNode) :
  upstreamRanked s st2 →
  nodeId ∈ visiting st2 →
  (∀ c, c ∈ getInputConnections nodeId s → from_nodeId c ∈ visited st2) →
  upstreamRanked s {| result := res; visited := {[nodeId]} ∪ visited st2;
                      visiting := visiting st2 ∖ {[nodeId]} |}.
Proof.
  intros (Hdisj & rank & bound & Hbound & Hedges) Hin Hinputs.
  assert (nodeId ∉ visited st2) as Hfresh by set_solver.
  split; [simpl; set_solver|].
  exists (λ v, if decide (v = nodeId) then bound else rank v), (S bound).
  simpl. split.
  - intros v Hv. case_decide; [lia|].
    assert (rank v < bound); [apply Hbound; set_solver|lia].
  - intros c Hc Hto. destruct (decide (to_nodeId c = nodeId)) as [Heq|Hne].
    + assert (from_nodeId c ∈ visited st2) as Hfrom
        by (apply Hinputs, list_elem_of_filter; done).
      split; [set_solver|].
      rewrite decide_False by (intros Hx; by rewrite Hx in Hfrom).
      specialize (Hbound _ Hfrom). lia.
    + assert (to_nodeId c ∈ visited st2) as Hto2 by set_solver.
      destruct (Hedges c Hc Hto2) as [Hfrom Hlt].
      split; [set_solver|].
      by rewrite decide_False by (intros Hx; by rewrite Hx in Hfrom).
Qed.

Lemma visit_ranked (fuel : nat) :
  ∀ nodeId st st',
    upstreamRanked s st → visit fuel s nodeId st = Return st' →
    upstreamRanked s st'
    ∧ visited st ⊆ visited st'
    ∧ nodeId ∈ visited st'
    ∧ visiting st' = visiting st.
Proof.
  induction fuel as [|fuel IH]; intros nodeId st st' Hinv; simpl; [done|].
  case_decide as Hvisited; [by intros [= <-]|].
  case_decide as Hvisiting; [done|].
  destruct (forEach _ _ _) as [st2| |] eqn:Hloop; [|done..].
  intros [= <-].
  apply (forEach_Return_inv _
           (λ handled st2,
              upstreamRanked s st2
              ∧ visited st ⊆ visited st2
              ∧ visiting st2 = {[nodeId]} ∪ visiting st
              ∧ ∀ c, c ∈ handled → from_nodeId c ∈ visited st2)) in Hloop.
  - destruct Hloop as (Hinv2 & Hsub & Hvis & Hdone). simpl.
    split; [apply upstreamRanked_leave; [done|set_solver|done]|].
    split; [set_solver|]. split; [set_solver|]. rewrite Hvis. set_solver.
  - destruct Hinv as (Hdisj & Hrank). simpl.
    split; [split; [simpl; set_solver|done]|].
    split; [done|]. split; [done|]. intros c Hc. by apply elem_of_nil in Hc.
  - intros handled c s1 s2 _ (Hinv1 & Hsub & Hvis & Hdone) Hcall.
    apply IH in Hcall as (Hinv2 & Hsub2 & Hc & Hvis2); [|done].
    split; [done|]. split; [set_solver|]. split; [congruence|].
    intros c' [Hc'| ->%list_elem_of_singleton]%elem_of_app; [|done].
    apply Hsub2. by apply Hdone.
Qed.

Lemma ranked_upstream (seen : gset string) (rank : string → nat) (u v : string) :
  (∀ c, c ∈ connections s → to_nodeId c ∈ seen →
        from_nodeId c ∈ seen ∧ rank (from_nodeId c) < rank (to_nodeId c)) →
  tc (edge (connections s)) u v → v ∈ seen →
  u ∈ seen ∧ rank u < rank v.
Proof.
  intros Hedges.
  induction 1 as [u v (c & Hc & <- & <-)|u v w (c & Hc & <- & <-) _ IH]; intros Hv.
  - by apply Hedges.
  - destruct (IH Hv) as [Hmid Hlt].
    destruct (Hedges c Hc Hmid) as [Hu Hstep]. split; [done|lia].
Qed.

End ranked.

(** X9. [getTopologicallySorted] throws [CycleDetected] whenever a directed
    cycle lies upstream of a stored node: some node [y] on a cycle reaches
    the stored node [nodeId] along the connections. *)
Theorem getTopologicallySorted_detects_cycle (s : State) (nodeId y : string)
    (Hids : distinctIds (nodes s))
    (Hstored : nodeId ∈ nodeKeys s)
    (Hupstream : rtc (edge (connections s)) y nodeId)
    (Hcycle : tc (edge (connections s)) y y) :
  getTopologicallySorted s = Throw CycleDetected.
Proof.
  destruct (getTopologicallySorted s) as [sorted|e|] eqn:Hrun.
  - exfalso. unfold getTopologicallySorted in Hrun.
    destruct (forEach _ _ _) as [st| |] eqn:Hloop; [|done..].
    apply (forEach_Return_inv _
             (λ handled st, upstreamRanked s st
                            ∧ ∀ k, k ∈ handled → k ∈ visited st)) in Hloop.
    + destruct Hloop as [(_ & rank & bound & _ & Hedges) Hall].
      assert (nodeId ∈ visited st) as Hx by by apply Hall.
      assert (y ∈ visited st) as Hy.
      { apply rtc_tc in Hupstream as [->|Hup]; [done|].
        by destruct (ranked_upstream s (visited st) rank y nodeId Hedges Hup Hx). }
      destruct (ranked_upstream s (visited st) rank y y Hedges Hcycle Hy)
        as [_ Hlt].
      lia.
    + split; [|intros k Hk; by apply elem_of_nil in Hk].
      split; [simpl; set_solver|]. exists (λ _, 0), 0. simpl.
      split; [set_solver|]. intros c _ Hc. set_solver.
    + intros handled k s1 s2 _ [Hinv1 Hdone] Hcall.
      apply visit_ranked in Hcall as (Hinv2 & Hsub & Hk & _); [|done].
      split; [done|].
      intros k' [Hk'| ->%list_elem_of_singleton]%elem_of_app; [|done].
      apply Hsub. by apply Hdone.
  - by rewrite (getTopologicallySorted_Throw s e Hrun).
  - exfalso. by apply (getTopologicallySorted_in_budget s).
Qed.

Lemma getTopologicallySorted_detects_cycle_witness :
  getTopologicallySorted Fixtures.cyclicGraph = Throw CycleDetected.
Proof.
  apply (getTopologicallySorted_detects_cycle Fixtures.cyclicGraph
           "effect-1" "effect-1").
  - unfold distinctIds. decided.
  - decided.
  - apply rtc_refl.
  - apply (tc_l _ _ "effect-2").
    + exists {| conn_id := "conn-1"; from_nodeId := "effect-1";
                from_output := "output"; to_nodeId := "effect-2";
                to_input := "input" |}.
      split; [decided|]. split; reflexivity.
    + apply tc_once.
      exists {| conn_id := "conn-2"; from_nodeId := "effect-2";
                from_output := "output"; to_nodeId := "effect-1";
                to_input := "input2" |}.
      split; [decided|]. split; reflexivity.
Defined.

(** *** Serialization *)

(** X10. [fromJSON] undoes [toJSON]: on the serialized form of a builder it
    returns, next to the counter and the store of the builder, that builder;
    next to any counter and store it returns a builder that serializes to
    the same data. *)
Theorem fromJSON_toJSON (s : State) (Hids : distinctIds (nodes s)) :
  fromJSON (toJSON s) (connectionIdCounter s) (store s) = Return s
  ∧ ∀ counter h,
      ∃ s', fromJSON (toJSON s) counter h = Return s'
        ∧ toJSON s' = toJSON s
        ∧ connectionIdCounter s' = counter ∧ store s' = h.
Proof.
  split.
  - rewrite fromJSON_Return by done. by destruct s.
  - intros counter h. eexists. split; [by apply fromJSON_Return|]. done.
Qed.

Lemma fromJSON_toJSON_witness :
  fromJSON (toJSON Fixtures.chainGraph)
           (connectionIdCounter Fixtures.chainGraph) (store Fixtures.chainGraph)
  = Return Fixtures.chainGraph.
Proof.
  apply (fromJSON_toJSON Fixtures.chainGraph).
  unfold distinctIds. decided.
Defined.

Lemma fromJSON_addNodes_duplicate (ns : list ShaderNode) :
  ∀ b, NoDup (node_id <$> nodes b) → ¬ NoDup (node_id <$> (nodes b ++ ns)) →
    ∃ before n after,
      ns = before ++ n :: after
      ∧ NoDup (node_id <$> (nodes b ++ before))
      ∧ node_id n ∈ node_id <$> (nodes b ++ before)
      ∧ forEach (λ node b, match addNode node b with
                           | (Return _, b') => Return b'
                           | (Throw e, _) => Throw e
                           | (OutOfFuel, _) => OutOfFuel
                           end) ns b
        = Throw (NodeAlreadyExists (node_id n)).
Proof.
  induction ns as [|n ns IH]; intros b Hb Hdup.
  - by rewrite app_nil_r in Hdup.
  - simpl. unfold addNode, hasNode.
    case_bool_decide as Hin.
    + exists [], n, ns. rewrite app_nil_r. done.
    + assert (NoDup (node_id <$> (nodes b ++ [n]))) as Hb'.
      { rewrite fmap_app. simpl. apply NoDup_app.
        split; [done|]. split; [|apply NoDup_singleton].
        intros k Hk ->%list_elem_of_singleton. done. }
      destruct (IH (set_nodes (nodes b ++ [n]) b)) as
        (before & m & after & -> & Hnd & Hm & Hrun); [done|..].
      { simpl. by rewrite <- app_assoc. }
      exists (n :: before), m, after. simpl in *.
      rewrite <- app_assoc in Hnd, Hm. done.
Qed.

(** X11. [fromJSON] returns exactly when the node ids of the data are distinct,
    and the builder it returns serializes back to the data; otherwise it
    throws [NodeAlreadyExists] for the first node whose id repeats the id of
    an earlier node. *)
Theorem fromJSON_checks_node_ids (data : SerializedGraph) (counter : nat)
    (h : gmap nat ParamDef) :
  (NoDup (node_id <$> data_nodes data)
   ∧ ∃ s, fromJSON data counter h = Return s ∧ toJSON s = data)
  ∨ (∃ before n after,
       data_nodes data = before ++ n :: after
       ∧ NoDup (node_id <$> before)
       ∧ node_id n ∈ node_id <$> before
       ∧ fromJSON data counter h = Throw (NodeAlreadyExists (node_id n))).
Proof.
  destruct (decide (NoDup (node_id <$> data_nodes data))) as [Hnd|Hdup].
  - left. split; [done|]. eexists. split; [by apply fromJSON_Return|].
    by destruct data.
  - right.
    destruct (fromJSON_addNodes_duplicate (data_nodes data)
                (new_builder (data_id data) counter h))
      as (before & n & after & Hnodes & Hnd & Hn & Hrun);
      [apply NoDup_nil_2|done|].
    exists before, n, after. unfold fromJSON. by rewrite Hrun.
Qed.

(** *** Removing connections and nodes *)

Lemma removeFirst_Some (connectionId : string) (cs : list Connection) :
  connectionId ∈ conn_id <$> cs →
  ∃ before c after,
    cs = before ++ c :: after
    ∧ conn_id c = connectionId
    ∧ (connectionId ∉ conn_id <$> before)
    ∧ removeFirst connectionId cs = Some (before ++ after).
Proof.
  induction cs as [|c cs IH]; intros Hin; [by apply elem_of_nil in Hin|].
  simpl. case_decide as Hid.
  - exists [], c, cs. split; [done|]. split; [done|]. split; [|done].
    apply not_elem_of_nil.
  - rewrite fmap_cons in Hin. apply elem_of_cons in Hin as [Heq|Hin]; [done|].
    destruct (IH Hin) as (before & c' & after & -> & Hc' & Hbefore & ->).
    exists (c :: before), c', after. split; [done|]. split; [done|].
    split; [|done]. rewrite fmap_cons. intros [?|?]%elem_of_cons; done.
Qed.

Lemma removeFirst_None (connectionId : string) (cs : list Connection) :
  connectionId ∉ conn_id <$> cs → removeFirst connectionId cs = None.
Proof.
  induction cs as [|c cs IH]; intros Hin; [done|].
  simpl. rewrite fmap_cons in Hin. apply not_elem_of_cons in Hin as [Hne Hin].
  rewrite decide_False by done. by rewrite IH.
Qed.

(** X12. [disconnect] removes the first connection that has the id, keeps the
    others in their order and returns [true]; when no connection has the id
    it returns [false] and changes nothing. *)
Theorem disconnect_removes_first (connectionId : string) (s : State) :
  (connectionId ∈ conn_id <$> connections s →
   ∃ before c after,
     connections s = before ++ c :: after
     ∧ conn_id c = connectionId
     ∧ (connectionId ∉ conn_id <$> before)
     ∧ disconnect connectionId s = (true, set_connections (before ++ after) s))
  ∧ (connectionId ∉ conn_id <$> connections s →
     disconnect connectionId s = (false, s)).
Proof.
  unfold disconnect. split.
  - intros (before & c & after & Hcs & Hc & Hbefore & Hrm)%removeFirst_Some.
    exists before, c, after. by rewrite Hrm.
  - intros Hmissing. by rewrite removeFirst_None.
Qed.

Lemma disconnect_removes_first_witness :
  (∃ before c after,
     connections Fixtures.chainGraph = before ++ c :: after
     ∧ conn_id c = "conn-2"
     ∧ disconnect "conn-2" Fixtures.chainGraph
       = (true, set_connections (before ++ after) Fixtures.chainGraph))
  ∧ disconnect "conn-9" Fixtures.chainGraph = (false, Fixtures.chainGraph).
Proof.
  split.
  - destruct (proj1 (disconnect_removes_first "conn-2" Fixtures.chainGraph))
      as (before & c & after & Hsplit & Hid & _ & Hrun); [decided|].
    exists before, c, after. split; [exact Hsplit|]. split; [exact Hid|exact Hrun].
  - apply (proj2 (disconnect_removes_first "conn-9" Fixtures.chainGraph)).
    decided.
Defined.

(** X13. When [connect] into an input no connection occupied returned an id,
    on a builder whose connection ids were issued by the counter,
    [disconnect] of that id returns [true] and gives back the connections
    and the nodes as they were before the [connect]. *)
Theorem connect_then_disconnect (f o t i cid : string) (s s' : State)
    (Hcall : connect f o t i s = (Return cid, s'))
    (Hissued : idsIssued s)
    (Hfree : filter (targets t i) (connections s) = []) :
  ∃ s'', disconnect cid s' = (true, s'')
    ∧ connections s'' = connections s
    ∧ nodes s'' = nodes s.
Proof.
  pose proof (connect_Return _ _ _ _ _ _ _ Hcall) as (Hcid & Hnodes & _ & Hconns).
  destruct (List.find _ (connections s)) as [existing|] eqn:Hfind.
  { apply find_some in Hfind as [Hex Ht]. apply bool_decide_eq_true in Ht.
    apply list_elem_of_In in Hex.
    assert (existing ∈ filter (targets t i) (connections s)) as Hin
      by (apply list_elem_of_filter; done).
    rewrite Hfree in Hin. by apply elem_of_nil in Hin. }
  assert (cid ∉ conn_id <$> connections s) as Hfresh.
  { intros [c [Hid Hc]]%list_elem_of_fmap.
    destruct Hissued as [_ Hissued]. destruct (Hissued c Hc) as (k & Hk & Hck).
    rewrite Hcid, Hck in Hid. apply (inj (String.app "conn-")) in Hid.
    apply (inj pretty) in Hid. lia. }
  unfold disconnect. rewrite Hconns.
  assert (∀ cs new, conn_id new ∉ conn_id <$> cs →
            removeFirst (conn_id new) (cs ++ [new]) = Some cs) as Hlast.
  { intros cs new. induction cs as [|c cs IH]; intros Hnew; simpl.
    - by rewrite decide_True.
    - rewrite fmap_cons in Hnew. apply not_elem_of_cons in Hnew as [Hne Hnew].
      rewrite decide_False by done. by rewrite IH. }
  pose proof (Hlast (connections s)
                {| conn_id := cid; from_nodeId := f; from_output := o;
                   to_nodeId := t; to_input := i |} Hfresh) as Hrm.
  simpl in Hrm. rewrite Hrm.
  eexists. split; [done|]. done.
Qed.

Lemma connect_then_disconnect_witness :
  let connected :=
    Fixtures.after (connect "source-1" "output" "effect-1" "input")
                   Fixtures.chainNodes in
  ∃ s'', disconnect "conn-1" connected = (true, s'')
    ∧ connections s'' = connections Fixtures.chainNodes
    ∧ nodes s'' = nodes Fixtures.chainNodes.
Proof.
  apply (connect_then_disconnect "source-1" "output" "effect-1" "input" "conn-1"
           Fixtures.chainNodes).
  - reflexivity.
  - split; [apply NoDup_nil_2|]. intros c Hc. by apply elem_of_nil in Hc.
  - reflexivity.
Defined.

Lemma filter_all {A : Type} (P : A → Prop) `{!∀ x, Decision (P x)} (l : list A) :
  (∀ x, x ∈ l → P x) → filter P l = l.
Proof.
  induction l as [|x l IH]; intros Hall; [done|].
  rewrite filter_cons_True by (apply Hall, elem_of_cons; by left).
  rewrite IH; [done|]. intros y Hy. apply Hall, elem_of_cons. by right.
Qed.

(** X14. On a builder without dangling connections, [addNode] of a node whose
    id is not stored returns, and [removeNode] of the id then returns [true]
    and gives the builder back as it was. *)
Theorem addNode_then_removeNode (node : ShaderNode) (s : State)
    (Hfresh : node_id node ∉ nodeKeys s)
    (Hdangling : noDangling s) :
  (addNode node s).1 = Return ()
  ∧ removeNode (node_id node) (addNode node s).2 = (true, s).
Proof.
  unfold addNode, hasNode. fold (nodeKeys s).
  rewrite bool_decide_eq_false_2 by done. split; [done|]. simpl.
  unfold removeNode, hasNode. simpl.
  rewrite bool_decide_eq_true_2
    by (rewrite fmap_app; apply elem_of_app; right; simpl; set_solver).
  simpl. f_equal.
  assert (filter (λ conn, from_nodeId conn ≠ node_id node
                          ∧ to_nodeId conn ≠ node_id node) (connections s)
          = connections s) as Hconns.
  { apply filter_all. intros c Hc.
    destruct (proj1 (noDangling_alt s) Hdangling c Hc) as [Hf Ht].
    split; intros Heq; apply Hfresh; congruence. }
  assert (filter (λ n, node_id n ≠ node_id node) (nodes s ++ [node]) = nodes s)
    as Hnodes.
  { rewrite filter_app, filter_cons_False, filter_nil, app_nil_r
      by (by intros Hne).
    apply filter_all. intros n Hn Heq. apply Hfresh.
    apply list_elem_of_fmap. eauto. }
  unfold set_nodes, set_connections. simpl. rewrite Hconns, Hnodes.
  by destruct s.
Qed.

Lemma addNode_then_removeNode_witness :
  (addNode (Fixtures.createSourceNode "source-2") Fixtures.chainGraph).1
  = Return ()
  ∧ removeNode "source-2"
      (addNode (Fixtures.createSourceNode "source-2") Fixtures.chainGraph).2
    = (true, Fixtures.chainGraph).
Proof.
  apply (addNode_then_removeNode (Fixtures.createSourceNode "source-2")
           Fixtures.chainGraph).
  - decided.
  - apply noDangling_alt, Forall_forall. decided.
Defined.

(** *** Parameter updates compose *)



(** *** The ends of the order *)

Lemma before_positions {A : Type} (x y : A) (l : list A) :
  before x y l → ∃ i j, l !! i = Some x ∧ l !! j = Some y ∧ i < j ∧ j < length l.
Proof.
  intros (l1 & l2 & l3 & ->).
  exists (length l1), (length l1 + S (length l2)).
  split; [by apply list_lookup_middle|]. split.
  - rewrite lookup_app_r by lia.
    replace (length l1 + S (length l2) - length l1) with (S (length l2)) by lia.
    simpl. by apply list_lookup_middle.
  - rewrite length_app. simpl. rewrite length_app. simpl. lia.
Qed.

Lemma filter_none {A : Type} (P : A → Prop) `{!∀ x, Decision (P x)} (l : list A) :
  (∀ x, x ∈ l → ¬ P x) → filter P l = [].
Proof.
  induction l as [|x l IH]; intros Hl; [done|].
  rewrite filter_cons. destruct (decide (P x)) as [HP|_].
  - destruct (Hl x); [apply elem_of_cons; by left|done].
  - apply IH. intros y Hy. apply Hl, elem_of_cons. by right.
Qed.

(** X16. When [getTopologicallySorted] returns on a builder with distinct node
    ids and no dangling connection, the first node of the order has no input
    connection and is among [getSourceNodes]; the last node has no output
    connection, and is among [getOutputNodes] when its type is [output]. *)
Theorem getTopologicallySorted_ends (s : State) (sorted : list ShaderNode)
    (Hids : distinctIds (nodes s))
    (Hdangling : noDangling s)
    (Hrun : getTopologicallySorted s = Return sorted) :
  (∀ first, head sorted = Some first →
     getInputConnections (node_id first) s = [] ∧ first ∈ getSourceNodes s)
  ∧ (∀ final, last sorted = Some final →
       getOutputConnections (node_id final) s = []
       ∧ (node_type final = output → final ∈ getOutputNodes s)).
Proof.
  destruct (getTopologicallySorted_Return s sorted Hids Hrun) as [Hperm Horder].
  assert (NoDup sorted) as Hnodup.
  { rewrite Hperm. by eapply NoDup_fmap_1. }
  split.
  - intros first Hhead.
    assert (sorted !! 0 = Some first) as Hfirst by (by destruct sorted).
    assert (first ∈ nodes s) as Hstored.
    { rewrite <- Hperm. by eapply list_elem_of_lookup_2. }
    assert (getInputConnections (node_id first) s = []) as Hnone.
    { apply filter_none. intros c Hc Hto.
      destruct (proj1 (noDangling_alt _) Hdangling c Hc) as [Hfrom _].
      apply list_elem_of_fmap in Hfrom as (m & Hm & Hmin).
      destruct (before_positions m first sorted) as (i & j & _ & Hj & Hij & _).
      { by apply (Horder c). }
      pose proof (NoDup_lookup _ _ _ _ Hnodup Hfirst Hj). lia. }
    split; [done|].
    apply list_elem_of_In, filter_In. split; [by apply list_elem_of_In|].
    cbv zeta. rewrite Hnone. simpl. apply orb_true_r.
  - intros final [front ->]%last_Some.
    assert ((front ++ [final]) !! length front = Some final) as Hfinal.
    { by apply list_lookup_middle. }
    assert (final ∈ nodes s) as Hstored.
    { rewrite <- Hperm. by eapply list_elem_of_lookup_2. }
    assert (getOutputConnections (node_id final) s = []) as Hnone.
    { apply filter_none. intros c Hc Hfrom.
      destruct (proj1 (noDangling_alt _) Hdangling c Hc) as [_ Hto].
      apply list_elem_of_fmap in Hto as (n & Hn & Hnin).
      destruct (before_positions final n (front ++ [final]))
        as (i & j & Hi & _ & Hij & Hj).
      { by apply (Horder c). }
      pose proof (NoDup_lookup _ _ _ _ Hnodup Hfinal Hi).
      rewrite length_app in Hj. simpl in Hj. lia. }
    split; [done|]. intros Htype.
    apply list_elem_of_In, filter_In. split; [by apply list_elem_of_In|].
    rewrite Hnone, Htype. done.
Qed.

Lemma getTopologicallySorted_ends_witness :
  Fixtures.createSourceNode "source-1" ∈ getSourceNodes Fixtures.chainGraph
  ∧ Fixtures.createOutputNode "output-1" ∈ getOutputNodes Fixtures.chainGraph.
Proof.
  destruct (getTopologicallySorted_ends Fixtures.chainGraph
              [Fixtures.createSourceNode "source-1";
               Fixtures.createEffectNode "effect-1" "Brightness" 0;
               Fixtures.createEffectNode "effect-2" "Contrast" 1;
               Fixtures.createOutputNode "output-1"])
    as [Hfirst Hlast].
  - unfold distinctIds. decided.
  - apply noDangling_alt, Forall_forall. decided.
  - vm_compute. reflexivity.
  - split.
    + apply (Hfirst (Fixtures.createSourceNode "source-1")). reflexivity.
    + apply (Hlast (Fixtures.createOutputNode "output-1")); reflexivity.
Defined.

End BuilderFacts.

(** ** Blend nodes in the builder *)

Module BlendNodeFacts.

Import Blend Graph GraphProps GraphFacts BlendNode BlendModeFacts BuilderFacts.

Lemma getNode_fresh (nodeId : string) (s : State) :
  nodeId ∉ nodeKeys s → getNode nodeId s = None.
Proof.
  intros Hfresh. destruct (getNode nodeId s) as [n|] eqn:Hget; [|done].
  apply getNode_Some in Hget as [Hin <-]. destruct Hfresh.
  apply list_elem_of_fmap. eauto.
Qed.

(** What [createBlendNode] allocates. *)
Lemma createBlendNode_params (wgsl id : string) (mode : option BlendMode)
    (opacity : option Q) (h h' : gmap nat ParamDef) (node : ShaderNode) :
  createBlendNode wgsl id mode opacity h = (node, h') →
  ∃ modeRef opacityRef,
    node_id node = id
    ∧ params node = {[ "mode" := modeRef; "opacity" := opacityRef ]}
    ∧ modeRef ≠ opacityRef
    ∧ h !! modeRef = None ∧ h !! opacityRef = None
    ∧ h' = <[opacityRef := opacityParam (default 1%Q opacity)]>
             (<[modeRef := modeParam (default mode_normal mode)]> h).
Proof.
  unfold createBlendNode. cbv zeta.
  set (modeRef := fresh (dom h)).
  set (h1 := <[modeRef := _]> h).
  set (opacityRef := fresh (dom h1)).
  intros [= <- <-].
  exists modeRef, opacityRef.
  assert (modeRef ∉ dom h) as Hmode by apply is_fresh.
  assert (opacityRef ∉ dom h1) as Hopacity by apply is_fresh.
  unfold h1 in Hopacity. rewrite dom_insert in Hopacity.
  split; [done|]. split; [done|]. split; [set_solver|].
  split; [by apply not_elem_of_dom|].
  split; [apply not_elem_of_dom; set_solver|done].
Qed.

(** X24. A node made by [createBlendNode] with an id the builder does not
    store, added with [addNode], reads back the mode and the opacity it was
    made with (normal and 1.0 by default); after
    [updateNodeParams(id, { opacity: value })] it is still stored, reads back
    the new opacity and the same mode; and every parameter value that could
    be read in the builder before reads the same after both steps. *)
Theorem createBlendNode_update (wgsl id : string) (mode : option BlendMode)
    (opacity : option Q) (value : Q) (s : State)
    (Hfresh : id ∉ nodeKeys s) :
  let node := (createBlendNode wgsl id mode opacity (store s)).1 in
  let h := (createBlendNode wgsl id mode opacity (store s)).2 in
  let s1 := (addNode node (set_store h s)).2 in
  let s2 := (updateNodeParams id {[ "opacity" := VNumber value ]} s1).2 in
  (∀ m key v, paramValue m key s = Some v →
              paramValue m key s1 = Some v ∧ paramValue m key s2 = Some v)
  ∧ getNode id s2 = Some node
  ∧ paramValue node "mode" s1 = Some (VString (modeString (default mode_normal mode)))
  ∧ paramValue node "opacity" s1 = Some (VNumber (default 1%Q opacity))
  ∧ paramValue node "mode" s2 = Some (VString (modeString (default mode_normal mode)))
  ∧ paramValue node "opacity" s2 = Some (VNumber value).
Proof.
  destruct (createBlendNode wgsl id mode opacity (store s)) as [node h] eqn:Hcreate.
  apply createBlendNode_params in Hcreate
    as (modeRef & opacityRef & Hid & Hparams & Hne & Hmode & Hopacity & Hstore).
  cbv zeta. cbn [fst snd].
  assert (addNode node (set_store h s)
          = (Return (), set_nodes (nodes s ++ [node]) (set_store h s))) as Hadd.
  { unfold addNode. rewrite Hid.
    unfold hasNode. cbn [nodes set_store]. by rewrite bool_decide_eq_false_2. }
  rewrite Hadd. cbn [snd].
  assert (getNode id (set_nodes (nodes s ++ [node]) (set_store h s)) = Some node)
    as Hget.
  { pose proof (getNode_app id (set_store h s) [node]) as Happ.
    cbn [nodes set_store] in Happ. rewrite Happ.
    replace (getNode id (set_store h s)) with (@None ShaderNode).
    - cbn [find]. by rewrite bool_decide_eq_true_2.
    - symmetry. by apply getNode_fresh. }
  unfold updateNodeParams. rewrite Hget. cbn [snd].
  rewrite map_to_list_singleton. cbn [foldl].
  unfold updateParam. cbn [fst snd]. rewrite Hparams.
  rewrite lookup_insert_ne by done. rewrite lookup_singleton_eq.
  unfold paramValue. cbn [store set_store set_nodes]. rewrite Hparams.
  rewrite lookup_insert_eq, (lookup_insert_ne _ "mode" "opacity") by done.
  rewrite lookup_singleton_eq. cbn [mbind option_bind].
  rewrite lookup_alter_eq, (lookup_alter_ne _ _ opacityRef modeRef) by done.
  rewrite Hstore.
  rewrite lookup_insert_eq, (lookup_insert_ne _ opacityRef modeRef) by done.
  rewrite lookup_insert_eq. cbn [fmap option_fmap option_map].
  split; [|done].
  intros m key v Hv.
  destruct (params m !! key) as [l|]; [|done]. cbn [mbind option_bind] in *.
  destruct (store s !! l) as [p|] eqn:Hl; [|done].
  assert (l ≠ opacityRef) by congruence.
  assert (l ≠ modeRef) by congruence.
  rewrite lookup_alter_ne, !lookup_insert_ne, Hl by done. done.
Qed.

Lemma createBlendNode_update_witness :
  let created :=
    createBlendNode "// blend functions" "blend-1" (Some mode_multiply) None
                    (store Fixtures.chainGraph) in
  let s1 := (addNode created.1 (set_store created.2 Fixtures.chainGraph)).2 in
  let s2 := (updateNodeParams "blend-1" {[ "opacity" := VNumber (1 # 2) ]} s1).2 in
  getNode "blend-1" s2 = Some created.1
  ∧ paramValue created.1 "opacity" s1 = Some (VNumber 1)
  ∧ paramValue created.1 "mode" s2 = Some (VString "multiply")
  ∧ paramValue created.1 "opacity" s2 = Some (VNumber (1 # 2)).
Proof.
  destruct (createBlendNode_update "// blend functions" "blend-1"
              (Some mode_multiply) None (1 # 2) Fixtures.chainGraph)
    as (_ & Hget & _ & Hopacity1 & Hmode2 & Hopacity2).
  - apply (bool_decide_unpack _). vm_compute. reflexivity.
  - split; [exact Hget|]. split; [exact Hopacity1|].
    split; [exact Hmode2|exact Hopacity2].
Defined.

Local Open Scope Q_scope.




End BlendNodeFacts.

(** ** The test suites on the model

    The expectations of shader-graph.test.ts, pass-merger.test.ts and
    compiler.test.ts, evaluated on the embedding. *)

Module Tests.

Import Graph GraphProps Merger Compiler Fixtures.

(** shader-graph.test.ts, "should get topologically sorted nodes" *)
Example test_topologically_sorted :
  getTopologicallySorted chainGraph
  = Return [createSourceNode "source-1";
            createEffectNode "effect-1" "Brightness" 0;
            createEffectNode "effect-2" "Contrast" 1;
            createOutputNode "output-1"].
Proof. vm_compute. reflexivity. Qed.

(** shader-graph.test.ts, "should detect cycles" *)
Example test_detect_cycles :
  let s := after (connect "effect-1" "output" "effect-2" "input") cycleTestNodes in
  (connect "effect-2" "output" "effect-1" "input2" s).1 = Throw WouldCreateCycle.
Proof. vm_compute. reflexivity. Qed.

(** shader-graph.test.ts, "should remove connections when node is removed" *)
Example test_remove_node_connections :
  let s := after (connect "source-1" "output" "effect-1" "input") chainNodes in
  length (getConnections s) = 1
  ∧ getConnections (after (removeNode "source-1") s) = [].
Proof. vm_compute. split; reflexivity. Qed.

(** shader-graph.test.ts, "should disconnect nodes" *)
Example test_disconnect :
  let s := after (connect "source-1" "output" "effect-1" "input") chainNodes in
  getConnections (after (disconnect "conn-1") s) = [].
Proof. vm_compute. reflexivity. Qed.

(** shader-graph.test.ts, "should update node params" *)
Example test_update_node_params :
  let s := after (updateNodeParams "effect-1" {[ "value" := VNumber (1 # 2) ]})
                 chainNodes in
  paramValue (createEffectNode "effect-1" "Brightness" 0) "value" s
  = Some (VNumber (1 # 2)).
Proof. vm_compute. reflexivity. Qed.

(** A stored cycle, loaded without [connect], is found by the sort. *)
Example test_sort_throws_on_cycle :
  let back := {| conn_id := "conn-9"; from_nodeId := "effect-2";
                 from_output := "output"; to_nodeId := "effect-1";
                 to_input := "input" |} in
  getTopologicallySorted
    (set_connections (connections chainGraph ++ [back]) chainGraph)
  = Throw CycleDetected.
Proof. vm_compute. reflexivity. Qed.

(** pass-merger.test.ts, "getNodeCategory" *)
Example test_getNodeCategory :
  getNodeCategory <$> ["brightness"; "contrast"; "saturation"; "opacity";
                       "brightness-contrast"]
  = [cat_color; cat_color; cat_color; cat_color; cat_color]
  ∧ getNodeCategory <$> ["scale"; "rotate"; "translate"; "transform"; "flip"; "crop"]
    = [cat_transform; cat_transform; cat_transform; cat_transform;
       cat_transform; cat_transform]
  ∧ getNodeCategory <$> ["blur"; "gaussian-blur"; "fast-blur"]
    = [cat_blur; cat_blur; cat_blur]
  ∧ getNodeCategory <$> ["blend"; "multiply-blend"; "screen-blend"]
    = [cat_blend; cat_blend; cat_blend]
  ∧ getNodeCategory <$> ["custom-effect"; "my-filter"]
    = [cat_unknown; cat_unknown].
Proof. vm_compute. repeat split; reflexivity. Qed.

(** pass-merger.test.ts, "canMergePasses" *)
Example test_canMergePasses :
  canMergePasses brightnessPass contrastPass = true
  ∧ canMergePasses brightnessPass otherSourcePass = false
  ∧ canMergePasses brightnessPass blendPass = false
  ∧ canMergePasses brightnessPass scalePass = false.
Proof. vm_compute. repeat split; reflexivity. Qed.

(** pass-merger.test.ts, "PassMerger.merge" *)
Example test_merge :
  length (merge [brightnessPass; scalePass]) = 2
  ∧ length (merge [brightnessPass; contrastPass; saturationPass]) = 1
  ∧ merge [] = []
  ∧ length (merge [brightnessPass]) = 1.
Proof. vm_compute. repeat split; reflexivity. Qed.

(** compiler.test.ts, "should mark final pass as screen output" *)
Example test_screen_output :
  ∃ front last, compile isSourceNode sourceToOutput = Return (front ++ [last])
                ∧ pass_output last = "screen".
Proof. eexists [], _. split; reflexivity. Qed.

(** compiler.test.ts, "should compile a chain of effects", "should track
    input/output textures" *)
Example test_compile_chain :
  ∃ passes, compile isSourceNode chainGraph = Return passes
    ∧ (λ p, (pass_nodes p, pass_inputs p, pass_output p)) <$> passes
      = [(["effect-1"], ["source-1"], "temp-1");
         (["effect-2"], ["temp-1"], "temp-2");
         (["output-1"], ["temp-2"], "screen")].
Proof. eexists. split; reflexivity. Qed.

End Tests.
